(** * flutes.io: reverse line reader, progress wrapper, output suppression

    A shallow embedding of [src/flutes/io.py] and the properties of its
    specification.  Python values are modelled as follows.

    - [bytes] is [list byte]; [str] is the list of its code points ([Z]).
    - An exception is a constructor of [exn]; a computation that may raise
      returns a [result].
    - A generator is modelled by the sequence of values it yields together
      with the way it ends (normal return or an exception).
    - The file system is a finite map from paths to contents, the keyword
      arguments of [tqdm] a finite map from names to values, and the
      process's descriptor table a finite map from descriptors to open
      files.
    - What the module calls but does not define (the builtin [open],
      [io.BufferedReader], [tqdm], the [os] descriptor calls and
      [contextlib.contextmanager]) is modelled by the documented behaviour
      of the Python library, as far as the module depends on it. *)

From Stdlib Require Import ZArith Lia Bool.
From Stdlib Require Import Strings.Byte Strings.Ascii Strings.String.
From stdpp Require Import base option list gmap strings.

Local Open Scope Z_scope.

(** ** Python values *)

Definition bytes := list byte.
Definition str := list Z.

Definition byte_val (b : byte) : Z := Z.of_N (Byte.to_N b).

(** ['\n'] *)
Definition NL : Z := 10.

(** Literals: [b"..."] and ["..."] of Python, with the escape [\n]. *)
Fixpoint b_lit (s : string) : bytes :=
  match s with
  | EmptyString => []
  | String "\"%char (String "n"%char r) => x0a :: b_lit r
  | String c r => byte_of_ascii c :: b_lit r
  end.

Definition s_lit (s : string) : str := map byte_val (b_lit s).

Inductive exn :=
| UnicodeDecodeError
| IndexError
| ValueError
| OSError
| StopIteration.

(** The result of a computation: a value, an exception, or (for the model's
    bounded loops only) exhaustion of the iteration budget. *)
Inductive result (A : Type) :=
| Ok (a : A)
| Raise (e : exn)
| Fuel.
Arguments Ok {A} a.
Arguments Raise {A} e.
Arguments Fuel {A}.

#[global] Instance result_bind : MBind result := λ A B f r,
  match r with
  | Ok a => f a
  | Raise e => Raise e
  | Fuel => Fuel
  end.

#[global] Instance exn_eq_dec : EqDecision exn.
Proof. solve_decision. Defined.

(** ** UTF-8, the default [encoding]

    [bytes.decode('utf-8')] with strict error handling, as a byte-at-a-time
    automaton.  A state records how many continuation bytes the character
    being read still lacks, the bits collected so far, and the range allowed
    for the next byte (which excludes overlong forms, surrogates and code
    points above U+10FFFF). *)

Inductive dstate :=
| Start
| Need1 (acc : Z)
| Need2 (acc lo hi : Z)
| Need3 (acc lo hi : Z).

Definition is_cont (v : Z) : bool := (0x80 <=? v) && (v <=? 0xBF).

Definition in_range (lo hi v : Z) : bool :=
  is_cont v && (lo <=? v) && (v <=? hi).

Definition push (acc v : Z) : Z := Z.lor (Z.shiftl acc 6) (Z.land v 0x3F).

Definition utf8_step (st : dstate) (b : byte) : option (str * dstate) :=
  let v := byte_val b in
  match st with
  | Start =>
      if v <? 0x80 then Some ([v], Start)
      else if v <? 0xC2 then None
      else if v <? 0xE0 then Some ([], Need1 (Z.land v 0x1F))
      else if v <? 0xF0 then
        Some ([], Need2 (Z.land v 0x0F)
                        (if v =? 0xE0 then 0xA0 else 0x80)
                        (if v =? 0xED then 0x9F else 0xBF))
      else if v <? 0xF5 then
        Some ([], Need3 (Z.land v 0x07)
                        (if v =? 0xF0 then 0x90 else 0x80)
                        (if v =? 0xF4 then 0x8F else 0xBF))
      else None
  | Need1 acc =>
      if in_range 0x80 0xBF v then Some ([push acc v], Start) else None
  | Need2 acc lo hi =>
      if in_range lo hi v then Some ([], Need1 (push acc v)) else None
  | Need3 acc lo hi =>
      if in_range lo hi v then Some ([], Need2 (push acc v) 0x80 0xBF) else None
  end.

Fixpoint utf8_feed (st : dstate) (bs : bytes) : option (str * dstate) :=
  match bs with
  | [] => Some ([], st)
  | b :: bs =>
      match utf8_step st b with
      | None => None
      | Some (out, st) =>
          match utf8_feed st bs with
          | None => None
          | Some (out', st) => Some (out ++ out', st)
          end
      end
  end.

(** [None] stands for [UnicodeDecodeError]. *)
Definition utf8_decode (bs : bytes) : option str :=
  match utf8_feed Start bs with
  | Some (out, Start) => Some out
  | _ => None
  end.

(** ** [str.split('\n')], [lines[-1] += segment], [buffer[-1]] *)

Fixpoint split (s : str) : list str :=
  match s with
  | [] => [[]]
  | c :: s =>
      if c =? NL then [] :: split s
      else match split s with
           | l :: ls => (c :: l) :: ls
           | [] => [[c]]
           end
  end.

Fixpoint add_to_last (lines : list str) (segment : str) : list str :=
  match lines with
  | [] => []
  | [l] => [l ++ segment]
  | l :: ls => l :: add_to_last ls segment
  end.

(** A suspended generator object: the values it has yet to yield and the
    way it will end. *)
Record generator_object := GeneratorObject {
  pending : list str;
  ending : result unit
}.

(** [next(gen)]: the next value, or the exception that ends the iteration.
    A generator that has returned or raised is finished and raises
    [StopIteration] from then on. *)
Definition next (gen : generator_object) : result str * generator_object :=
  match pending gen with
  | y :: ys => (Ok y, {| pending := ys; ending := ending gen |})
  | [] =>
      match ending gen with
      | Ok () => (Raise StopIteration, gen)
      | Raise e => (Raise e, {| pending := []; ending := Ok () |})
      | Fuel => (Fuel, gen)
      end
  end.

(** ** The file system and the builtin [open] *)

Inductive io_event :=
| SysOpen (path mode : string).

Record world := World {
  fs : gmap string bytes;
  io_log : list io_event
}.

Definition log_io (ev : io_event) (w : world) : world :=
  {| fs := fs w; io_log := io_log w ++ [ev] |}.

Definition has_char (c : ascii) (s : string) : bool :=
  bool_decide (c ∈ list_ascii_of_string s).

(** The argument check of [open]: known characters only, none repeated,
    exactly one of [r], [w], [a], [x], and not both [t] and [b]. *)
Definition mode_ok (mode : string) : bool :=
  let cs := list_ascii_of_string mode in
  forallb (λ c, has_char c "axrwb+t") cs
  && bool_decide (NoDup cs)
  && negb (has_char "t" mode && has_char "b" mode)
  && (length (filter (λ c, c ∈ list_ascii_of_string "axrw") cs) =? 1)%nat.

(** A file object as [open] returns it. *)
Record file := File {
  f_path : string;
  f_mode : string;
  f_data : bytes
}.

Definition builtin_open (path mode : string) (w : world) : result file * world :=
  if negb (mode_ok mode) then (Raise ValueError, w)
  else
    let w := log_io (SysOpen path mode) w in
    match fs w !! path with
    | Some data =>
        if has_char "x" mode then (Raise OSError, w)
        else if has_char "w" mode then
          (Ok (File path mode []),
           {| fs := <[path := []]> (fs w); io_log := io_log w |})
        else (Ok (File path mode data), w)
    | None =>
        if has_char "r" mode then (Raise OSError, w)
        else
          (Ok (File path mode []),
           {| fs := <[path := []]> (fs w); io_log := io_log w |})
    end.

(** ** [_ReverseReadlineFile] *)

Module _ReverseReadlineFile.
Definition MAX_CHAR_BYTES : Z := 4.

(** The local variables of the generator that live across iterations of its
    outer loop. *)
Record gen_vars := GenVars {
  segment : option str;
  offset : Z;
  remaining_size : Z
}.

Section generator.
(** [fp] is the content of the file opened in binary mode, [decode] the
    codec selected by [encoding]. *)
Variable decode : bytes → option str.
Variable fp : bytes.
Variable allow_empty_lines : bool.
Variable buf_size : Z.

Definition file_size : Z := Z.of_nat (length fp).

(** [fp.seek(target)]: returns the new position. *)
Definition fp_seek (target : Z) : result Z :=
  if target <? 0 then Raise OSError else Ok target.

(** [fp.read(size)] at position [pos]. *)
Definition fp_read (pos size : Z) : result bytes :=
  if size <? -1 then Raise ValueError
  else if size =? -1 then Ok (drop (Z.to_nat pos) fp)
  else Ok (take (Z.to_nat size) (drop (Z.to_nat pos) fp)).

(** The inner [while True] loop.  It runs at most [MAX_CHAR_BYTES] times,
    which is the budget it is started with. *)
Fixpoint decode_loop (budget : nat) (trials : Z) (buffer_bytes : bytes)
    (cur_buf_size offset : Z) : result (str * Z * Z) :=
  match budget with
  | O => Fuel
  | S budget =>
      let trials := trials + 1 in
      match decode buffer_bytes with
      | Some buffer => Ok (buffer, cur_buf_size, offset)
      | None =>
          if trials >=? MAX_CHAR_BYTES then Raise UnicodeDecodeError
          else decode_loop budget trials (drop 1 buffer_bytes)
                           (cur_buf_size - 1) (offset - 1)
      end
  end.

(** One iteration of the outer loop: the lines it yields, in order, and
    the variables it leaves. *)
Definition loop_body (v : gen_vars) : result (list str * gen_vars) :=
  let cur_buf_size := buf_size in
  let offset := Z.min file_size (offset v + cur_buf_size) in
  pos ← fp_seek (file_size - offset);
  buffer_bytes ← fp_read pos (Z.min (remaining_size v) cur_buf_size);
  '(buffer, cur_buf_size, offset) ←
    decode_loop (Z.to_nat MAX_CHAR_BYTES) 0 buffer_bytes cur_buf_size offset;
  _ ← fp_seek (file_size - offset);
  let remaining_size := remaining_size v - cur_buf_size in
  let lines := split buffer in
  '(lines, flushed) ←
    match segment v with
    | Some segment =>
        match last buffer with
        | None => Raise IndexError
        | Some c =>
            if negb (c =? NL) then Ok (add_to_last lines segment, [])
            else Ok (lines, [segment])
        end
    | None => Ok (lines, [])
    end;
  let segment := hd [] lines in
  let yielded :=
    filter (λ line, allow_empty_lines || negb (length line =? 0)%nat)
           (rev (tl lines)) in
  Ok (flushed ++ yielded,
      {| segment := Some segment; offset := offset;
         remaining_size := remaining_size |}).

Fixpoint while_loop (fuel : nat) (v : gen_vars) : list str * result unit :=
  if remaining_size v >? 0 then
    match fuel with
    | O => ([], Fuel)
    | S fuel =>
        match loop_body v with
        | Ok (ys, v) => let '(zs, r) := while_loop fuel v in (ys ++ zs, r)
        | Raise e => ([], Raise e)
        | Fuel => ([], Fuel)
        end
    end
  else
    (match segment v with Some segment => [segment] | None => [] end, Ok ()).

(** The lines the generator yields and the way it ends: [Ok ()] when it
    returns, [Raise e] when the exception [e] leaves it. *)
Definition generator : list str * result unit :=
  while_loop (S (length fp))
    {| segment := None; offset := 0; remaining_size := file_size |}.
End generator.

(** An object of the class: the open file and the generator over it. *)
Record instance := {
  fp : file;
  gen : generator_object
}.

Definition __next__ (self : instance) : result str * instance :=
  let '(r, g) := next (gen self) in
  (line ← r; Ok (line ++ [NL]), {| fp := fp self; gen := g |}).

Definition readline (self : instance) : result str * instance :=
  let '(r, g) := next (gen self) in
  (r, {| fp := fp self; gen := g |}).
End _ReverseReadlineFile.

Import _ReverseReadlineFile.

(** ** [reverse_open]

    The generator is created over the open file and left suspended; the
    object holds what it will yield once it is resumed. *)
Definition reverse_open (decode : bytes → option str) (path : string)
    (allow_empty_lines : bool) (buffer_size : Z) (w : world)
    : result _ReverseReadlineFile.instance * world :=
  if buffer_size <? MAX_CHAR_BYTES then (Raise ValueError, w)
  else
    match builtin_open path "rb" w with
    | (Ok fp, w) =>
        let '(ys, r) := generator decode (f_data fp) allow_empty_lines buffer_size in
        (Ok {| fp := fp; gen := {| pending := ys; ending := r |} |}, w)
    | (Raise e, w) => (Raise e, w)
    | (Fuel, w) => (Fuel, w)
    end.

(** ** The progress bar ([tqdm])

    Modelled by the calls it receives and by its counter [n], which
    [update] advances and which the wrapper also assigns directly.  A
    [BarRefresh] records the count the bar displays at that moment. *)

Inductive bar_call :=
| BarUpdate (k : Z)
| BarRefresh (shown : Z)
| BarEnter
| BarExit
| BarClose.

Record tqdm := Tqdm {
  total : Z;
  bar_options : gmap string string;
  n : Z;
  calls : list bar_call
}.

Definition tqdm_new (total : Z) (kwargs : gmap string string) : tqdm :=
  {| total := total; bar_options := kwargs; n := 0; calls := [] |}.

Definition called (c : bar_call) (bar : tqdm) : tqdm :=
  {| total := total bar; bar_options := bar_options bar; n := n bar;
     calls := calls bar ++ [c] |}.

Definition set_n (v : Z) (bar : tqdm) : tqdm :=
  {| total := total bar; bar_options := bar_options bar; n := v;
     calls := calls bar |}.

Definition tqdm_update (k : Z) (bar : tqdm) : tqdm :=
  called (BarUpdate k) (set_n (n bar + k) bar).


(** ** [io.BufferedReader], the base class of the wrapper

    The wrapper only relies on the interface of its base class.  The
    read-family methods are indexed by [read_op]; each returns the bytes it
    obtained ([readinto] stores them in its argument and returns their
    number). *)

Inductive read_op :=
| Read (size : Z)
| Read1 (size : Z)
| ReadInto (len_b : Z)
| ReadLine (size : Z).


Class BufferedReader (R : Type) := {
  super_size : R → Z;
  super_tell : R → Z;
  super_closed : R → bool;
  super_read : read_op → R → result bytes * R;
  super_seek : Z → Z → R → result Z * R;
  super_close : R → R
}.


(** A concrete base class over a regular file, for [progress_open]. *)
Record raw_reader := RawReader {
  raw_data : bytes;
  raw_buffer_size : Z;
  raw_pos : Z;
  raw_closed : bool
}.

Definition raw_rest (r : raw_reader) : bytes := drop (Z.to_nat (raw_pos r)) (raw_data r).

Fixpoint line_prefix (bs : bytes) : bytes :=
  match bs with
  | [] => []
  | b :: bs => if byte_val b =? NL then [b] else b :: line_prefix bs
  end.

Definition limit (size : Z) (bs : bytes) : bytes :=
  if size <? 0 then bs else take (Z.to_nat size) bs.

Definition raw_read (op : read_op) (r : raw_reader) : result bytes * raw_reader :=
  if raw_closed r then (Raise ValueError, r)
  else
    let ret :=
      match op with
      | Read size => if size <? -1 then Raise ValueError else Ok (limit size (raw_rest r))
      | Read1 size =>
          Ok (limit (if size <? 0 then raw_buffer_size r else size) (raw_rest r))
      | ReadInto len_b => Ok (limit (Z.max 0 len_b) (raw_rest r))
      | ReadLine size => Ok (limit size (line_prefix (raw_rest r)))
      end in
    match ret with
    | Ok ret =>
        (Ok ret,
         {| raw_data := raw_data r; raw_buffer_size := raw_buffer_size r;
            raw_pos := raw_pos r + Z.of_nat (length ret); raw_closed := false |})
    | e => (e, r)
    end.

Definition raw_seek (offset whence : Z) (r : raw_reader) : result Z * raw_reader :=
  if raw_closed r then (Raise ValueError, r)
  else
    let target :=
      if whence =? 0 then Ok offset
      else if whence =? 1 then Ok (raw_pos r + offset)
      else if whence =? 2 then Ok (Z.of_nat (length (raw_data r)) + offset)
      else Raise ValueError in
    match target with
    | Ok t =>
        if t <? 0 then (Raise OSError, r)
        else (Ok t,
              {| raw_data := raw_data r; raw_buffer_size := raw_buffer_size r;
                 raw_pos := t; raw_closed := false |})
    | e => (e, r)
    end.

Definition raw_close (r : raw_reader) : raw_reader :=
  {| raw_data := raw_data r; raw_buffer_size := raw_buffer_size r;
     raw_pos := raw_pos r; raw_closed := true |}.

#[global] Instance raw_reader_base : BufferedReader raw_reader := {
  super_size r := Z.of_nat (length (raw_data r));
  super_tell r := raw_pos r;
  super_closed := raw_closed;
  super_read := raw_read;
  super_seek := raw_seek;
  super_close := raw_close
}.

(** ** [_ProgressBufferedReader] *)

Module _ProgressBufferedReader.
Record instance (R : Type) := {
  base : R;
  progress_bar : tqdm
}.
Arguments base {R} _.
Arguments progress_bar {R} _.

Section progress.
Context {R : Type} `{BufferedReader R}.

Local Abbreviation reader := (instance R).

(** The four read methods share one shape: call the base class, report
    the length of what it returned, return it. *)
Definition read_family (op : read_op) (self : reader) : result bytes * reader :=
  match super_read op (base self) with
  | (Ok ret, r) =>
      (Ok ret,
       {| base := r;
          progress_bar := tqdm_update (Z.of_nat (length ret)) (progress_bar self) |})
  | (e, r) => (e, {| base := r; progress_bar := progress_bar self |})
  end.

Definition readline (size : Z) := read_family (ReadLine size).



Definition close (self : reader) : reader :=
  {| base := base self; progress_bar := called BarClose (progress_bar self) |}.

(** [__enter__]: enters the bar, then [IOBase.__enter__], which refuses a
    closed file. *)
Definition __enter__ (self : reader) : result unit * reader :=
  let self := {| base := base self;
                 progress_bar := called BarEnter (progress_bar self) |} in
  if super_closed (base self) then (Raise ValueError, self) else (Ok (), self).

(** [__exit__]: [IOBase.__exit__] calls [self.close()], which is the
    method above, and returns [None]; the bar's [__exit__] follows. *)
Definition __exit__ (self : reader) : reader :=
  let self := close self in
  {| base := base self; progress_bar := called BarExit (progress_bar self) |}.

(** A sequence of read-family calls, each continuing from the state the
    previous one left, with the bytes each returned. *)
Fixpoint reads (ops : list read_op) (self : reader) : list (result bytes) * reader :=
  match ops with
  | [] => ([], self)
  | op :: ops =>
      let '(r, self) := read_family op self in
      let '(rs, self) := reads ops self in
      (r :: rs, self)
  end.

End progress.

(** [__init__]; the base class refuses a buffer size that is not positive,
    and the bar's total is the size of the file. *)
Definition __init__ (raw : bytes) (buffer_size : Z)
    (bar_kwargs : gmap string string) : result (instance raw_reader) :=
  if buffer_size <=? 0 then Raise ValueError
  else
    let file_size := Z.of_nat (length raw) in
    Ok {| base := {| raw_data := raw; raw_buffer_size := buffer_size;
                     raw_pos := 0; raw_closed := false |};
          progress_bar := tqdm_new file_size bar_kwargs |}.
End _ProgressBufferedReader.

(** ** [progress_open] *)

Inductive handle :=
| PlainFile (f : file)
| BinaryHandle (f : _ProgressBufferedReader.instance raw_reader)
| TextHandle (f : _ProgressBufferedReader.instance raw_reader) (encoding : string).

Definition BAR_FORMAT : string := "{l_bar}{bar}| [{elapsed}<{remaining}]".

(** [kwargs.setdefault(key, value)] *)
Definition setdefault (key value : string) (kwargs : gmap string string)
    : gmap string string :=
  match kwargs !! key with
  | Some _ => kwargs
  | None => <[key := value]> kwargs
  end.

(** [io.FileIO(path, mode="r")] *)
Definition file_io (path : string) (w : world) : result bytes * world :=
  let w := log_io (SysOpen path "r") w in
  match fs w !! path with
  | Some data => (Ok data, w)
  | None => (Raise OSError, w)
  end.

Definition progress_open (path mode encoding : string) (verbose : bool)
    (buffer_size : Z) (kwargs : gmap string string) (w : world)
    : result handle * world :=
  if negb verbose then
    let '(r, w) := builtin_open path mode w in
    (f ← r; Ok (PlainFile f), w)
  else if negb (bool_decide (mode ∈ ["r"; "rb"]%string)) then (Raise ValueError, w)
  else
    let kwargs := setdefault "bar_format" BAR_FORMAT kwargs in
    match file_io path w with
    | (Ok raw, w) =>
        (f ← _ProgressBufferedReader.__init__ raw buffer_size kwargs;
         if bool_decide (mode = "r"%string) then Ok (TextHandle f encoding)
         else Ok (BinaryHandle f), w)
    | (Raise e, w) => (Raise e, w)
    | (Fuel, w) => (Fuel, w)
    end.

(** ** [shut_up]

    The process's descriptor table maps a descriptor to what it refers to. *)

Inductive open_file :=
| DevNull
| Stream (name : string).

Abbreviation fd_table := (gmap nat open_file).

Definition os (A : Type) : Type := fd_table → result A * fd_table.

Definition os_ret {A} (a : A) : os A := λ t, (Ok a, t).

Definition os_bind {A B} (m : os A) (f : A → os B) : os B := λ t,
  match m t with
  | (Ok a, t) => f a t
  | (Raise e, t) => (Raise e, t)
  | (Fuel, t) => (Fuel, t)
  end.

Notation "x ←ₒ m ; k" := (os_bind m (λ x, k))
  (at level 20, m at level 100, k at level 200, right associativity).

(** The lowest descriptor that is not open. *)
Fixpoint lowest_free_from (budget fd : nat) (t : fd_table) : nat :=
  match budget with
  | O => fd
  | S budget =>
      match t !! fd with
      | None => fd
      | Some _ => lowest_free_from budget (S fd) t
      end
  end.

Definition lowest_free (t : fd_table) : nat := lowest_free_from (size t) 0%nat t.

(** [os.open(os.devnull, os.O_RDWR)] *)
Definition os_open_devnull : os nat := λ t,
  let fd := lowest_free t in (Ok fd, <[fd := DevNull]> t).

(** [os.dup(fd)] *)
Definition os_dup (fd : nat) : os nat := λ t,
  match t !! fd with
  | Some f => let fd2 := lowest_free t in (Ok fd2, <[fd2 := f]> t)
  | None => (Raise OSError, t)
  end.

(** [os.dup2(fd, fd2)] *)
Definition os_dup2 (fd fd2 : nat) : os nat := λ t,
  match t !! fd with
  | Some f => (Ok fd2, <[fd2 := f]> t)
  | None => (Raise OSError, t)
  end.

(** [os.close(fd)] *)
Definition os_close (fd : nat) : os unit := λ t,
  match t !! fd with
  | Some _ => (Ok (), delete fd t)
  | None => (Raise OSError, t)
  end.

(** [[f(x) for x in xs]] *)
Fixpoint os_map {A B} (f : A → os B) (xs : list A) : os (list B) :=
  match xs with
  | [] => os_ret []
  | x :: xs => y ←ₒ f x; ys ←ₒ os_map f xs; os_ret (y :: ys)
  end.

(** [for x in xs: f(x)] *)
Fixpoint os_for {A} (xs : list A) (f : A → os unit) : os unit :=
  match xs with
  | [] => os_ret ()
  | x :: xs => _ ←ₒ f x; os_for xs f
  end.

(** What the generator holds at its [yield]. *)
Record shut_up_frame := {
  fds : list nat;
  null_fds : list nat;
  output_fds : list nat
}.

(** The generator up to its [yield]. *)
Definition shut_up_before (stderr stdout : bool) : os shut_up_frame :=
  let fds := (if stdout then [1%nat] else []) ++ (if stderr then [2%nat] else []) in
  null_fds ←ₒ os_map (λ _, os_open_devnull) fds;
  output_fds ←ₒ os_map os_dup fds;
  _ ←ₒ os_for (zip null_fds fds)
         (λ '(null_fd, fd), _ ←ₒ os_dup2 null_fd fd; os_ret ());
  os_ret {| fds := fds; null_fds := null_fds; output_fds := output_fds |}.

(** The generator after its [yield]. *)
Definition shut_up_after (fr : shut_up_frame) : os unit :=
  os_for (zip (zip (null_fds fr) (output_fds fr)) (fds fr))
    (λ '(null_fd, output_fd, fd),
       _ ←ₒ os_dup2 output_fd fd; os_close null_fd).

(** [with shut_up(stderr, stdout): body], by the protocol of
    [contextlib.contextmanager]: when the body ends normally the generator
    is resumed after its [yield]; when the body raises, the exception is
    thrown into the generator at its [yield], where no handler encloses it,
    so the generator ends there and the exception goes on to the caller. *)
Definition shut_up {A} (stderr stdout : bool) (body : os A) : os A := λ t,
  match shut_up_before stderr stdout t with
  | (Ok fr, t) =>
      match body t with
      | (Ok a, t) => (_ ←ₒ shut_up_after fr; os_ret a) t
      | (Raise e, t) => (Raise e, t)
      | (Fuel, t) => (Fuel, t)
      end
  | (Raise e, t) => (Raise e, t)
  | (Fuel, t) => (Fuel, t)
  end.

(** ** Vocabulary of the properties *)


(** The lines of a list that are not empty. *)
Definition nonblank (ls : list str) : list str := filter (λ l, l ≠ []) ls.


(** What the reverse reader relies on in a codec: the empty input decodes
    to the empty text; decoding goes through concatenation; where an input
    and a tail of it both decode, the head before that tail decodes too;
    from any position of an input that decodes, dropping at most three bytes
    leads to a tail that decodes; and only the empty input decodes to the
    empty text. *)
Record self_synchronizing (decode : bytes → option str) : Prop := {
  dec_nil : decode [] = Some [];
  dec_app : ∀ a b x y, decode a = Some x → decode b = Some y → decode (a ++ b) = Some (x ++ y);
  dec_prefix : ∀ a b t y, decode (a ++ b) = Some t → decode b = Some y →
                          ∃ x, decode a = Some x ∧ t = x ++ y;
  dec_sync : ∀ a b t, decode (a ++ b) = Some t →
                      ∃ j, (j ≤ 3)%nat ∧ is_Some (decode (drop j b));
  dec_nonempty : ∀ bs, decode bs = Some [] → bs = []
}.

(** The state of the generator between two chunks: the chunks read so far
    cover the file from byte [p] on, which decodes to [t]; the pending
    segment is the first line of [t], and the lines yielded are, blank lines
    aside, the other lines of [t] from the last to the second. *)
Definition covers (decode : bytes → option str) (fp : bytes)
    (p : nat) (t : str) (v : gen_vars) (ys : list str) : Prop :=
  (p ≤ length fp)%nat ∧
  offset v = file_size fp - Z.of_nat p ∧
  (remaining_size v = Z.of_nat p ∨ (remaining_size v ≤ 0 ∧ p = 0%nat)) ∧
  decode (drop p fp) = Some t ∧
  ((p = length fp ∧ segment v = None ∧ ys = []) ∨
   ((p < length fp)%nat ∧ segment v = Some (hd [] (split t)) ∧
    nonblank ys = nonblank (rev (tl (split t))))).

(** What the generator is to yield on a file [fp] that decodes to [text]:
    nothing for an empty file; otherwise the first line of the text last,
    after lines that are, blank lines aside, the other lines of the text
    from the last to the second. *)
Definition first_line_last (fp : bytes) (text : str) (out : list str) : Prop :=
  (fp = [] → out = []) ∧
  (fp ≠ [] → ∃ others, out = others ++ [hd [] (split text)] ∧
                       nonblank others = nonblank (rev (tl (split text)))).


(** A file that is not valid UTF-8: four continuation bytes follow its first
    character. *)
Definition bad_file : bytes :=
  b_lit "A" ++ [x80; x80; x80; x80] ++ b_lit "\nxyz\nabcd".

(** A file with characters of one, two and three bytes and no final
    newline. *)
Definition euro_file : bytes :=
  [x61; xc3; xa9; x0a; x78; x79; x7a; xe2; x82; xac].

(** [for line in f] and repeated [f.readline()]: the values obtained by
    calling [method] until it raises, at most [k] times. *)
Fixpoint pull
    (method : _ReverseReadlineFile.instance → result str * _ReverseReadlineFile.instance)
    (k : nat) (self : _ReverseReadlineFile.instance) : list str :=
  match k with
  | O => []
  | S k =>
      match method self with
      | (Ok line, self) => line :: pull method k self
      | _ => []
      end
  end.

(** The standard descriptors of a process. *)
Definition std_fds : fd_table :=
  {[ 0%nat := Stream "stdin"; 1%nat := Stream "stdout"; 2%nat := Stream "stderr" ]}.

(** A wrapper as [progress_open] builds it over a file of eleven bytes. *)
Definition sample_reader : _ProgressBufferedReader.instance raw_reader :=
  {| _ProgressBufferedReader.base :=
       {| raw_data := b_lit "hello\nworld"; raw_buffer_size := 8192;
          raw_pos := 0; raw_closed := false |};
     _ProgressBufferedReader.progress_bar := tqdm_new 11 ∅ |}.

(** A text none of whose lines is empty, save possibly the last: it does
    not begin with a newline and has no two newlines in a row; it may end
    with one. *)
Definition no_blank_lines (text : str) : Prop :=
  Forall (λ l, l ≠ []) (removelast (split text)).

(** A file of three lines, each ended by a newline. *)
Definition three_lines : bytes := b_lit "ab\ncd\nef\n".

(** A sequence of calls on a reverse reader, [true] for [__next__] and
    [false] for [readline], each on the object the previous one left, with
    what each returned or raised. *)
Fixpoint run_calls (ms : list bool) (self : _ReverseReadlineFile.instance)
    : list (result str) * _ReverseReadlineFile.instance :=
  match ms with
  | [] => ([], self)
  | m :: ms =>
      let '(r, self) :=
        if m then _ReverseReadlineFile.__next__ self
        else _ReverseReadlineFile.readline self in
      let '(rs, self) := run_calls ms self in
      (r :: rs, self)
  end.

(** What a call returns for the line it pulls. *)
Definition returned_line (m : bool) (line : str) : result str :=
  Ok (if m then line ++ [NL] else line).




(** * Properties *)

(** ** Lines and chunks *)

Lemma split_nonempty s : split s ≠ [].
Proof. induction s as [|c s IH]; simpl; [done|]. destruct (c =? NL); [done|]. by destruct (split s). Qed.

Lemma add_to_last_snoc ls l seg : add_to_last (ls ++ [l]) seg = ls ++ [l ++ seg].
Proof.
  induction ls as [|a ls IH]; [done|]. simpl. rewrite IH.
  destruct (ls ++ [l]) eqn:E; [by destruct ls|done].
Qed.

Lemma split_snoc_view s : ∃ init z, split s = init ++ [z].
Proof.
  destruct (split s) as [|a l] eqn:E using rev_ind; [by destruct (split_nonempty s)|].
  eauto.
Qed.

Lemma split_app x t :
  split (x ++ t) = add_to_last (split x) (hd [] (split t)) ++ tl (split t).
Proof.
  induction x as [|c x IH]; simpl.
  - destruct (split t) eqn:E; [by destruct (split_nonempty t)|done].
  - destruct (c =? NL).
    + rewrite IH. destruct (split x) eqn:E; [by destruct (split_nonempty x)|done].
    + rewrite IH. destruct (split x) as [|l ls] eqn:E; [by destruct (split_nonempty x)|].
      simpl. destruct ls; done.
Qed.

Lemma split_snoc x c :
  split (x ++ [c]) = if c =? NL then split x ++ [[]] else add_to_last (split x) [c].
Proof.
  rewrite split_app. simpl. destruct (c =? NL); simpl.
  - destruct (split_snoc_view x) as (init & z & ->).
    rewrite add_to_last_snoc, !app_nil_r. done.
  - by rewrite app_nil_r.
Qed.

Lemma nonblank_app ls1 ls2 : nonblank (ls1 ++ ls2) = nonblank ls1 ++ nonblank ls2.
Proof. apply filter_app. Qed.

Lemma nonblank_keep allow ls :
  nonblank (filter (λ line, allow || negb (length line =? 0)%nat) ls) = nonblank ls.
Proof.
  unfold nonblank. apply list_filter_filter_l.
  intros [|c l] Hne; [done|]. simpl. by rewrite orb_true_r.
Qed.

(** Joining: the chunk does not end with a newline. *)
Lemma lines_join x t :
  let lines := add_to_last (split x) (hd [] (split t)) in
  hd [] (split (x ++ t)) = hd [] lines ∧
  nonblank (rev (tl (split (x ++ t))))
    = nonblank (rev (tl (split t))) ++ nonblank (rev (tl lines)).
Proof.
  intros lines. rewrite split_app. fold lines.
  assert (lines ≠ []) as Hne.
  { unfold lines. destruct (split_snoc_view x) as (init & z & ->).
    rewrite add_to_last_snoc. by destruct init. }
  destruct lines as [|l ls]; [done|]. simpl.
  by rewrite rev_app_distr, nonblank_app.
Qed.

(** Flushing: the chunk ends with a newline. *)
Lemma lines_flush x t :
  last x = Some NL →
  hd [] (split (x ++ t)) = hd [] (split x) ∧
  nonblank (rev (tl (split (x ++ t))))
    = nonblank (rev (tl (split t)))
      ++ nonblank (hd [] (split t) :: rev (tl (split x))).
Proof.
  intros Hlast.
  destruct x as [|c x'] using rev_ind; [done|]. clear IHx'.
  rewrite last_snoc in Hlast. injection Hlast as ->.
  destruct (lines_join (x' ++ [NL]) t) as [-> ->].
  rewrite split_snoc. simpl. rewrite add_to_last_snoc. simpl.
  destruct (split x') as [|l ls] eqn:E; [by destruct (split_nonempty x')|].
  simpl. split; [done|]. f_equal.
  rewrite !rev_app_distr. simpl. unfold nonblank. rewrite !filter_cons.
  rewrite (decide_False (P := [] ≠ [])) by auto. done.
Qed.

(** ** The retry loop *)

Lemma result_bind_ok {A B} (a : A) (f : A → result B) : Ok a ≫= f = f a.
Proof. reflexivity. Qed.

Section retry.
Variable decode : bytes → option str.

Lemma decode_loop_unfold bs cur off :
  decode_loop decode (Z.to_nat MAX_CHAR_BYTES) 0 bs cur off =
    match decode bs with
    | Some b => Ok (b, cur, off)
    | None =>
      match decode (drop 1 bs) with
      | Some b => Ok (b, cur - 1, off - 1)
      | None =>
        match decode (drop 2 bs) with
        | Some b => Ok (b, cur - 2, off - 2)
        | None =>
          match decode (drop 3 bs) with
          | Some b => Ok (b, cur - 3, off - 3)
          | None => Raise UnicodeDecodeError
          end
        end
      end
    end.
Proof.
  change (Z.to_nat MAX_CHAR_BYTES) with 4%nat. cbn [decode_loop].
  rewrite !drop_drop. simpl.
  replace (cur - 1 - 1) with (cur - 2) by lia.
  replace (off - 1 - 1) with (off - 2) by lia.
  replace (cur - 2 - 1) with (cur - 3) by lia.
  replace (off - 2 - 1) with (off - 3) by lia.
  repeat (destruct (decode _); [done|]). done.
Qed.

Lemma decode_loop_ok bs cur off buffer cur' off' :
  decode_loop decode (Z.to_nat MAX_CHAR_BYTES) 0 bs cur off = Ok (buffer, cur', off') →
  ∃ k : nat, (k ≤ 3)%nat ∧ decode (drop k bs) = Some buffer ∧
             (∀ j, (j < k)%nat → decode (drop j bs) = None) ∧
             cur' = cur - Z.of_nat k ∧ off' = off - Z.of_nat k.
Proof.
  rewrite decode_loop_unfold.
  destruct (decode bs) eqn:E0.
  { intros [= <- <- <-]. exists 0%nat. split_and!; [lia|done|lia|lia|lia]. }
  destruct (decode (drop 1 bs)) eqn:E1.
  { intros [= <- <- <-]. exists 1%nat. split_and!; [lia|done| |lia|lia].
    intros j Hj. by replace j with 0%nat by lia. }
  destruct (decode (drop 2 bs)) eqn:E2.
  { intros [= <- <- <-]. exists 2%nat. split_and!; [lia|done| |lia|lia].
    intros j Hj. assert (j = 0 ∨ j = 1)%nat as [-> | ->] by lia; done. }
  destruct (decode (drop 3 bs)) eqn:E3; [|done].
  intros [= <- <- <-]. exists 3%nat. split_and!; [lia|done| |lia|lia].
  intros j Hj. assert (j = 0 ∨ j = 1 ∨ j = 2)%nat as [-> | [-> | ->]] by lia; done.
Qed.

Lemma decode_loop_first k bs cur off buffer :
  (k ≤ 3)%nat → decode (drop k bs) = Some buffer →
  (∀ j, (j < k)%nat → decode (drop j bs) = None) →
  decode_loop decode (Z.to_nat MAX_CHAR_BYTES) 0 bs cur off
    = Ok (buffer, cur - Z.of_nat k, off - Z.of_nat k).
Proof.
  intros Hk Hdec Hmin. rewrite decode_loop_unfold.
  assert (k = 0 ∨ k = 1 ∨ k = 2 ∨ k = 3)%nat as [-> | [-> | [-> | ->]]] by lia.
  - rewrite drop_0 in Hdec. rewrite Hdec. do 3 f_equal; lia.
  - rewrite <- (drop_0 bs) at 1. rewrite (Hmin 0%nat), Hdec by lia. done.
  - rewrite <- (drop_0 bs) at 1.
    rewrite (Hmin 0%nat), (Hmin 1%nat), Hdec by lia. done.
  - rewrite <- (drop_0 bs) at 1.
    rewrite (Hmin 0%nat), (Hmin 1%nat), (Hmin 2%nat), Hdec by lia. done.
Qed.


Lemma decode_loop_result bs cur off :
  (∃ k buffer, (k ≤ 3)%nat ∧ decode (drop k bs) = Some buffer ∧
     (∀ j, (j < k)%nat → decode (drop j bs) = None) ∧
     decode_loop decode (Z.to_nat MAX_CHAR_BYTES) 0 bs cur off
       = Ok (buffer, cur - Z.of_nat k, off - Z.of_nat k)) ∨
  ((∀ j, (j ≤ 3)%nat → decode (drop j bs) = None) ∧
   decode_loop decode (Z.to_nat MAX_CHAR_BYTES) 0 bs cur off = Raise UnicodeDecodeError).
Proof.
  destruct (decode_loop decode (Z.to_nat MAX_CHAR_BYTES) 0 bs cur off)
    as [[[buffer cur'] off']| e |] eqn:E.
  - left. destruct (decode_loop_ok _ _ _ _ _ _ E) as (k & Hk & Hd & Hmin & -> & ->).
    eauto 10.
  - right. rewrite decode_loop_unfold in E.
    destruct (decode bs) eqn:E0; [done|].
    destruct (decode (drop 1 bs)) eqn:E1; [done|].
    destruct (decode (drop 2 bs)) eqn:E2; [done|].
    destruct (decode (drop 3 bs)) eqn:E3; [done|].
    split; [|done]. intros j Hj.
    assert (j = 0 ∨ j = 1 ∨ j = 2 ∨ j = 3)%nat as [-> | [-> | [-> | ->]]] by lia; done.
  - rewrite decode_loop_unfold in E. by repeat destruct (decode _).
Qed.
End retry.

(** ** The outer loop *)

Section loop.
Variable decode : bytes → option str.
Variable fp : bytes.
Variable allow_empty_lines : bool.
Variable buf_size : Z.
Hypothesis buf_size_legal : MAX_CHAR_BYTES ≤ buf_size.

Local Abbreviation body := (loop_body decode fp allow_empty_lines buf_size).
Local Abbreviation loop := (while_loop decode fp allow_empty_lines buf_size).

Lemma while_loop_eq fuel v :
  loop fuel v =
    if remaining_size v >? 0 then
      match fuel with
      | O => ([], Fuel)
      | S fuel =>
          match body v with
          | Ok (ys, v) => let '(zs, r) := loop fuel v in (ys ++ zs, r)
          | Raise e => ([], Raise e)
          | Fuel => ([], Fuel)
          end
      end
    else (match segment v with Some segment => [segment] | None => [] end, Ok ()).
Proof. by destruct fuel. Qed.

(** An iteration that completes consumes at least one byte, and no
    iteration exhausts the budget of the retry loop. *)
Lemma loop_body_progress v :
  match body v with
  | Ok (ys, v') => remaining_size v' < remaining_size v
  | Raise e => True
  | Fuel => False
  end.
Proof.
  unfold MAX_CHAR_BYTES in buf_size_legal. unfold loop_body, fp_seek.
  destruct (_ <? 0); [exact I|]. rewrite result_bind_ok.
  destruct (fp_read _ _ _) as [chunk| e |] eqn:Eread; [|exact I|].
  2:{ unfold fp_read in Eread.
      destruct (_ <? -1); [done|]. by destruct (_ =? -1). }
  rewrite result_bind_ok.
  destruct (decode_loop_result decode chunk buf_size
              (Z.min (file_size fp) (offset v + buf_size)))
    as [(k & buffer & Hk & _ & _ & ->) | [_ ->]]; [|exact I].
  rewrite result_bind_ok.
  destruct (_ <? 0); [exact I|]. rewrite result_bind_ok.
  destruct (segment v) as [seg|]; [|simpl; lia].
  destruct (last buffer) as [c|]; [|exact I].
  destruct (negb _); simpl; lia.
Qed.

Lemma while_loop_terminates fuel v :
  remaining_size v ≤ Z.of_nat fuel → (loop fuel v).2 ≠ Fuel.
Proof.
  revert v. induction fuel as [|fuel IH]; intros v Hfuel; rewrite while_loop_eq;
    destruct (Z.gtb_spec (remaining_size v) 0) as [Hpos|Hend]; try done; try lia.
  pose proof (loop_body_progress v) as Hprog.
  destruct (body v) as [[ys v']| e |]; [|done..].
  specialize (IH v'). destruct (loop fuel v') as [zs r]. simpl in *.
  apply IH. lia.
Qed.

(** With a legal buffer size the generator ends: it returns or raises. *)
Lemma generator_terminates :
  (generator decode fp allow_empty_lines buf_size).2 ≠ Fuel.
Proof.
  unfold generator. apply while_loop_terminates.
  unfold file_size. simpl. lia.
Qed.



End loop.



(** An incomplete sequence at the head of a chunk is skipped: the chunk
    [82 ac] of a file that ends with U+20AC decodes, with buffer size 4 and
    after one byte is dropped, on the second attempt. *)
Example retry_example :
  decode_loop utf8_decode (Z.to_nat MAX_CHAR_BYTES) 0 [x82; xac; x0a; x41] 4 4
    = Ok (s_lit "\nA", 2, 2).
Proof. vm_compute. reflexivity. Qed.

(** ** UTF-8 is self-synchronizing *)

#[local] Arguments utf8_step : simpl never.

Lemma utf8_feed_app st a b :
  utf8_feed st (a ++ b) =
    match utf8_feed st a with
    | None => None
    | Some (out, st') =>
        match utf8_feed st' b with
        | None => None
        | Some (out', st'') => Some (out ++ out', st'')
        end
    end.
Proof.
  revert st. induction a as [|c a IH]; intros st; simpl.
  - by destruct (utf8_feed st b) as [[out st']|].
  - destruct (utf8_step st c) as [[o1 st1]|]; [|done].
    rewrite IH. destruct (utf8_feed st1 a) as [[o2 st2]|]; [|done].
    destruct (utf8_feed st2 b) as [[o3 st3]|]; [|done].
    by rewrite app_assoc.
Qed.

(** A byte accepted at the start of a character is not a continuation
    byte; a byte accepted inside a character is one. *)
Lemma utf8_step_start b r : utf8_step Start b = Some r → is_cont (byte_val b) = false.
Proof.
  unfold utf8_step, is_cont. generalize (byte_val b) as v. intros v.
  destruct (Z.ltb_spec v 0x80) as [Hlt|Hge].
  - intros _. apply andb_false_iff. left. by apply Z.leb_gt.
  - destruct (Z.ltb_spec v 0xC2) as [Hlt|Hge']; [discriminate|].
    intros _. apply andb_false_iff. right. apply Z.leb_gt. lia.
Qed.

Lemma utf8_step_inside st b r :
  st ≠ Start → utf8_step st b = Some r → is_cont (byte_val b) = true.
Proof.
  unfold utf8_step, in_range. generalize (byte_val b) as v. intros v.
  destruct st as [|acc|acc lo hi|acc lo hi]; [done|..]; intros _;
    destruct (is_cont v); done.
Qed.

Lemma utf8_feed_start_inv st bs out :
  utf8_feed st bs = Some (out, Start) →
  is_Some (utf8_decode bs) →
  st = Start.
Proof.
  destruct bs as [|b bs]; simpl.
  - by intros [= _ ->].
  - intros Hst [y Hy]. unfold utf8_decode in Hy. simpl in Hy.
    destruct (utf8_step Start b) as [r0|] eqn:E0; [|done].
    destruct (utf8_step st b) as [r1|] eqn:E1; [|done].
    apply utf8_step_start in E0.
    destruct st as [|acc|acc lo hi|acc lo hi]; [done|..];
      apply utf8_step_inside in E1; congruence.
Qed.

Lemma utf8_decode_feed bs out :
  utf8_decode bs = Some out ↔ utf8_feed Start bs = Some (out, Start).
Proof.
  unfold utf8_decode. destruct (utf8_feed Start bs) as [[o []]|]; naive_solver.
Qed.

(** Where a step leads: the start state emits a character or enters a
    sequence; inside a sequence each byte brings the end one byte closer. *)
Lemma utf8_step_from_start b r :
  utf8_step Start b = Some r →
  (∃ c, r = ([c], Start)) ∨ (∃ acc, r = ([], Need1 acc)) ∨
  (∃ acc lo hi, r = ([], Need2 acc lo hi)) ∨ (∃ acc lo hi, r = ([], Need3 acc lo hi)).
Proof.
  unfold utf8_step. generalize (byte_val b) as v. intros v.
  destruct (v <? 0x80); [intros [= <-]; eauto|].
  destruct (v <? 0xC2); [done|].
  destruct (v <? 0xE0); [intros [= <-]; eauto|].
  destruct (v <? 0xF0); [intros [= <-]; eauto 10|].
  destruct (v <? 0xF5); [intros [= <-]; eauto 10|done].
Qed.

Lemma utf8_step_from_need1 acc b r :
  utf8_step (Need1 acc) b = Some r → ∃ c, r = ([c], Start).
Proof.
  unfold utf8_step. generalize (byte_val b) as v. intros v.
  destruct (in_range _ _ v); [intros [= <-]; eauto|done].
Qed.

Lemma utf8_step_from_need2 acc lo hi b r :
  utf8_step (Need2 acc lo hi) b = Some r → ∃ acc', r = ([], Need1 acc').
Proof.
  unfold utf8_step. generalize (byte_val b) as v. intros v.
  destruct (in_range _ _ v); [intros [= <-]; eauto|done].
Qed.

Lemma utf8_step_from_need3 acc lo hi b r :
  utf8_step (Need3 acc lo hi) b = Some r → ∃ acc' lo' hi', r = ([], Need2 acc' lo' hi').
Proof.
  unfold utf8_step. generalize (byte_val b) as v. intros v.
  destruct (in_range _ _ v); [intros [= <-]; eauto|done].
Qed.

Lemma utf8_feed_cons st b bs r :
  utf8_feed st (b :: bs) = Some r →
  ∃ o st' o', utf8_step st b = Some (o, st') ∧
              utf8_feed st' bs = Some (o', r.2) ∧ r.1 = o ++ o'.
Proof.
  cbn [utf8_feed]. destruct (utf8_step st b) as [[o st']|] eqn:Hstep; [|done].
  destruct (utf8_feed st' bs) as [[o' st'']|] eqn:Hrest; [|done].
  intros [= <-]. exists o, st', o'. by rewrite Hrest.
Qed.

(** From inside a character, at most three continuation bytes lead to the
    start of the next one. *)
Lemma utf8_feed_resync st bs out :
  utf8_feed st bs = Some (out, Start) →
  ∃ j, (j ≤ 3)%nat ∧ is_Some (utf8_decode (drop j bs)).
Proof.
  intros Hfeed.
  assert (Hstart : ∀ bs out, utf8_feed Start bs = Some (out, Start) →
                     is_Some (utf8_decode bs)).
  { intros bs' out' H. exists out'. by apply utf8_decode_feed. }
  assert (Hone : ∀ acc bs out, utf8_feed (Need1 acc) bs = Some (out, Start) →
                   is_Some (utf8_decode (drop 1 bs))).
  { intros acc [|b bs'] out' H; [done|].
    apply utf8_feed_cons in H as (o & st' & o' & Hstep & Hrest & _).
    apply utf8_step_from_need1 in Hstep as (c & [= -> ->]).
    rewrite skipn_cons, drop_0. eauto. }
  assert (Htwo : ∀ acc lo hi bs out, utf8_feed (Need2 acc lo hi) bs = Some (out, Start) →
                   is_Some (utf8_decode (drop 2 bs))).
  { intros acc lo hi [|b bs'] out' H; [done|].
    apply utf8_feed_cons in H as (o & st' & o' & Hstep & Hrest & _).
    apply utf8_step_from_need2 in Hstep as (acc' & [= -> ->]).
    rewrite skipn_cons. by eapply Hone. }
  destruct st as [|acc|acc lo hi|acc lo hi].
  - exists 0%nat. split; [lia|]. rewrite drop_0. eauto.
  - exists 1%nat. split; [lia|]. eauto.
  - exists 2%nat. split; [lia|]. eauto.
  - exists 3%nat. split; [lia|].
    destruct bs as [|b bs']; [done|].
    apply utf8_feed_cons in Hfeed as (o & st' & o' & Hstep & Hrest & _).
    apply utf8_step_from_need3 in Hstep as (acc' & lo' & hi' & [= -> ->]).
    rewrite skipn_cons. by eapply Htwo.
Qed.

(** Decoding consumes at least one byte per character. *)
Lemma utf8_feed_progress st b bs out :
  utf8_feed st (b :: bs) = Some (out, Start) → out ≠ [].
Proof.
  assert (Hone : ∀ acc bs out, utf8_feed (Need1 acc) bs = Some (out, Start) → out ≠ []).
  { intros acc [|c cs] o H; [done|].
    apply utf8_feed_cons in H as (o1 & st' & o' & Hstep & _ & Hout).
    apply utf8_step_from_need1 in Hstep as (d & [= -> ->]).
    simpl in Hout. by rewrite Hout. }
  assert (Htwo : ∀ acc lo hi bs out,
            utf8_feed (Need2 acc lo hi) bs = Some (out, Start) → out ≠ []).
  { intros acc lo hi [|c cs] o H; [done|].
    apply utf8_feed_cons in H as (o1 & st' & o' & Hstep & Hrest & Hout).
    apply utf8_step_from_need2 in Hstep as (acc' & [= -> ->]).
    simpl in Hout, Hrest. rewrite Hout. by eapply Hone. }
  assert (Hthree : ∀ acc lo hi bs out,
            utf8_feed (Need3 acc lo hi) bs = Some (out, Start) → out ≠ []).
  { intros acc lo hi [|c cs] o H; [done|].
    apply utf8_feed_cons in H as (o1 & st' & o' & Hstep & Hrest & Hout).
    apply utf8_step_from_need3 in Hstep as (acc' & lo' & hi' & [= -> ->]).
    simpl in Hout, Hrest. rewrite Hout. by eapply Htwo. }
  destruct st as [|acc|acc lo hi|acc lo hi]; [|by eauto..].
  intros H. apply utf8_feed_cons in H as (o1 & st' & o' & Hstep & Hrest & Hout).
  simpl in Hout, Hrest. rewrite Hout.
  apply utf8_step_from_start in Hstep
    as [(c & [= -> ->]) | [(acc & [= -> ->]) |
        [(acc & lo & hi & [= -> ->]) | (acc & lo & hi & [= -> ->])]]]; simpl.
  - done.
  - by eapply Hone.
  - by eapply Htwo.
  - by eapply Hthree.
Qed.

Theorem utf8_self_synchronizing : self_synchronizing utf8_decode.
Proof.
  split.
  - done.
  - intros a b x y Ha%utf8_decode_feed Hb%utf8_decode_feed.
    apply utf8_decode_feed. by rewrite utf8_feed_app, Ha, Hb.
  - intros a b t y Hab%utf8_decode_feed Hb.
    rewrite utf8_feed_app in Hab.
    destruct (utf8_feed Start a) as [[x st]|] eqn:Ea; [|done].
    destruct (utf8_feed st b) as [[y' st']|] eqn:Eb; [|done].
    injection Hab as <- ->.
    assert (st = Start) as -> by (eapply utf8_feed_start_inv; eauto).
    apply utf8_decode_feed in Hb. rewrite Hb in Eb. injection Eb as <-.
    exists x. split; [by apply utf8_decode_feed|done].
  - intros a b t Hab%utf8_decode_feed.
    rewrite utf8_feed_app in Hab.
    destruct (utf8_feed Start a) as [[x st]|] eqn:Ea; [|done].
    destruct (utf8_feed st b) as [[y' st']|] eqn:Eb; [|done].
    injection Hab as _ ->. by eapply utf8_feed_resync.
  - intros [|b bs] Hd%utf8_decode_feed; [done|].
    by apply utf8_feed_progress in Hd.
Qed.

(** ** Files that decode *)

Section well_formed.
Variable decode : bytes → option str.
Hypothesis codec : self_synchronizing decode.
Variable fp : bytes.
Variable text : str.
Hypothesis fp_text : decode fp = Some text.
Variable allow_empty_lines : bool.
Variable buf_size : Z.
Hypothesis buf_size_legal : MAX_CHAR_BYTES ≤ buf_size.

Local Abbreviation body := (loop_body decode fp allow_empty_lines buf_size).
Local Abbreviation size := (file_size fp).

(** The chunk read when [p] bytes remain: [n] bytes from position [q]. *)
Lemma chunk_decodes p t (q := (p - Z.to_nat (Z.min (Z.of_nat p) buf_size))%nat)
    (n := Z.to_nat (Z.min (Z.of_nat p) buf_size)) cur off :
  (0 < p ≤ length fp)%nat →
  decode (drop p fp) = Some t →
  ∃ (k : nat) x,
    (k ≤ 3)%nat ∧ (k < n)%nat ∧ (Z.of_nat p < buf_size → k = 0%nat) ∧
    x ≠ [] ∧
    decode (drop (q + k) fp) = Some (x ++ t) ∧
    decode_loop decode (Z.to_nat MAX_CHAR_BYTES) 0 (take n (drop q fp)) cur off
      = Ok (x, cur - Z.of_nat k, off - Z.of_nat k).
Proof.
  intros Hp Ht. unfold MAX_CHAR_BYTES in buf_size_legal.
  assert (Hqn : (q + n = p)%nat) by (unfold q, n; lia).
  assert (Hn : (1 ≤ n)%nat) by (unfold n; lia).
  set (chunk := take n (drop q fp)).
  assert (Hlen : length chunk = n).
  { unfold chunk. rewrite length_take, length_drop. lia. }
  assert (Hsplit : ∀ j, (j ≤ n)%nat → drop (q + j) fp = drop j chunk ++ drop p fp).
  { intros j Hj. rewrite <- drop_drop.
    rewrite <- (take_drop n (drop q fp)) at 1. fold chunk.
    rewrite drop_app_le by lia. by rewrite drop_drop, Hqn. }
  assert (Hiff : ∀ j u, (j ≤ n)%nat → decode (drop (q + j) fp) = Some u →
                        ∃ x, decode (drop j chunk) = Some x ∧ u = x ++ t).
  { intros j u Hj Hu. rewrite Hsplit in Hu by done.
    by apply (dec_prefix _ codec _ _ _ _ Hu Ht). }
  assert (Hk : ∃ (k : nat) x, (k ≤ 3)%nat ∧ (k < n)%nat ∧
                 (Z.of_nat p < buf_size → k = 0%nat) ∧
                 decode (drop k chunk) = Some x ∧
                 (∀ j, (j < k)%nat → decode (drop j chunk) = None)).
  { destruct (decide (Z.of_nat p ≤ buf_size)) as [Hsmall|Hbig].
    - (* the chunk is the head of the file *)
      assert (q = 0%nat) as Hq by (unfold q; lia).
      destruct (Hiff 0%nat text) as (x & Hx & _); [lia| |].
      { by rewrite Hq. }
      exists 0%nat, x. split_and!; [lia|lia|done|done|lia].
    - (* a full chunk of [buf_size] bytes *)
      assert (n = Z.to_nat buf_size) as Hnb by (unfold n; lia).
      destruct (dec_sync _ codec (take q fp) (drop q fp) text) as (j & Hj & [u Hu]).
      { by rewrite take_drop. }
      rewrite drop_drop in Hu.
      destruct (Hiff j u) as (x & Hx & _); [lia|done|].
      destruct (decode_loop_result decode chunk 0 0)
        as [(k & b & Hk3 & Hb & Hmin & _) | [Hnone _]].
      + exists k, b. split_and!; [done|lia|lia|done|done].
      + rewrite Hnone in Hx by done. done. }
  destruct Hk as (k & x & Hk3 & Hkn & Hk0 & Hx & Hmin).
  exists k, x. split_and!; try done.
  - intros ->. apply (dec_nonempty _ codec) in Hx.
    apply (f_equal length) in Hx. rewrite length_drop, Hlen in Hx. simpl in Hx. lia.
  - rewrite Hsplit by lia. by apply (dec_app _ codec).
  - by apply decode_loop_first.
Qed.

Lemma body_step p t v ys :
  covers decode fp p t v ys →
  0 < remaining_size v →
  ∃ p' t' ys' v',
    body v = Ok (ys', v') ∧ covers decode fp p' t' v' (ys ++ ys') ∧
    remaining_size v' < remaining_size v.
Proof.
  intros (Hp & Hoff & Hrem & Ht & Hseg) Hpos.
  assert (remaining_size v = Z.of_nat p) as Hrem' by lia. clear Hrem.
  assert (0 < p)%nat as Hp0 by lia.
  unfold MAX_CHAR_BYTES in buf_size_legal.
  set (q := (p - Z.to_nat (Z.min (Z.of_nat p) buf_size))%nat).
  set (n := Z.to_nat (Z.min (Z.of_nat p) buf_size)).
  destruct (chunk_decodes p t buf_size (size - Z.of_nat q) (conj Hp0 Hp) Ht)
    as (k & x & Hk3 & Hkn & Hk0 & Hx & Hdec & Hloop).
  fold q n in Hkn, Hdec, Hloop.
  unfold loop_body. rewrite Hoff, Hrem'.
  replace (Z.min size (size - Z.of_nat p + buf_size)) with (size - Z.of_nat q)
    by (unfold q, file_size; lia).
  replace (size - (size - Z.of_nat q)) with (Z.of_nat q) by lia.
  unfold fp_seek, fp_read.
  rewrite (proj2 (Z.ltb_ge (Z.of_nat q) 0)) by lia. rewrite result_bind_ok.
  rewrite (proj2 (Z.ltb_ge _ (-1))) by lia.
  rewrite (proj2 (Z.eqb_neq _ (-1))) by lia. rewrite result_bind_ok.
  rewrite Nat2Z.id. fold n. rewrite Hloop. rewrite result_bind_ok.
  rewrite (proj2 (Z.ltb_ge _ 0)) by (unfold q, file_size; lia). rewrite result_bind_ok.
  assert (Hcov : ∀ ys' lines,
            hd [] (split (x ++ t)) = hd [] lines →
            nonblank (ys ++ ys') = nonblank (rev (tl (split (x ++ t)))) →
            covers decode fp (q + k) (x ++ t)
              {| segment := Some (hd [] lines);
                 offset := size - Z.of_nat q - Z.of_nat k;
                 remaining_size := Z.of_nat p - (buf_size - Z.of_nat k) |}
              (ys ++ ys')).
  { intros ys' lines Hhd Hnb. unfold covers. simpl.
    split_and!; [lia|lia| |done|].
    - destruct (decide (Z.of_nat p < buf_size)) as [Hsmall|Hbig].
      + right. specialize (Hk0 Hsmall). lia.
      + left. lia.
    - right. split_and!; [lia|by rewrite Hhd|done]. }
  exists (q + k)%nat, (x ++ t).
  destruct Hseg as [(-> & -> & ->) | (Hlt & -> & Hys)].
  - (* the first chunk *)
    rewrite drop_all, (dec_nil _ codec) in Ht. injection Ht as <-.
    rewrite result_bind_ok. eexists _, _. split_and!; [done| |simpl; lia].
    apply Hcov; rewrite app_nil_r; [done|]. simpl. by rewrite nonblank_keep.
  - destruct (last x) as [c|] eqn:Hlast; [|by apply last_None in Hlast].
    destruct (c =? NL) eqn:Hc; simpl.
    + (* the chunk ends a line: the pending segment is a line of its own *)
      apply Z.eqb_eq in Hc as ->.
      destruct (lines_flush x t Hlast) as [Hhd Hnb].
      eexists _, _. split_and!; [done| |simpl; lia].
      apply Hcov; [done|].
      rewrite Hnb, !nonblank_app, Hys. f_equal.
      pose proof (nonblank_keep allow_empty_lines (rev (tl (split x)))) as Hkeep.
      unfold nonblank in *. rewrite !filter_cons.
      destruct (decide _); [f_equal|]; exact Hkeep.
    + (* the pending segment continues the last line of the chunk *)
      destruct (lines_join x t) as [Hhd Hnb].
      eexists _, _. split_and!; [done| |simpl; lia].
      apply Hcov; [done|].
      rewrite Hnb, !nonblank_app, Hys. simpl. by rewrite nonblank_keep.
Qed.

Lemma covers_end p t v ys :
  covers decode fp p t v ys →
  remaining_size v ≤ 0 →
  first_line_last fp text (ys ++ match segment v with Some s => [s] | None => [] end).
Proof.
  intros (Hp & Hoff & Hrem & Ht & Hseg) Hend.
  assert (p = 0%nat) as -> by lia.
  rewrite drop_0, fp_text in Ht. injection Ht as <-.
  destruct Hseg as [(Hlen & -> & ->) | (Hlen & -> & Hys)]; split.
  - done.
  - intros Hne. destruct fp; [done|discriminate].
  - intros ->. simpl in Hlen. lia.
  - intros _. by exists ys.
Qed.

(** From a state that covers part of the file the loop runs to the end of
    the generator, which then returns. *)
Lemma while_loop_covers fuel p t v ys :
  covers decode fp p t v ys →
  remaining_size v ≤ Z.of_nat fuel →
  ∃ zs, while_loop decode fp allow_empty_lines buf_size fuel v = (zs, Ok ()) ∧
        first_line_last fp text (ys ++ zs).
Proof.
  revert p t v ys. induction fuel as [|fuel IH]; intros p t v ys Hcov Hfuel;
    rewrite while_loop_eq; destruct (Z.gtb_spec (remaining_size v) 0) as [Hpos|Hend];
    try lia.
  - eexists. split; [done|]. by eapply covers_end.
  - destruct (body_step p t v ys Hcov) as (p' & t' & ys' & v' & -> & Hcov' & Hlt); [lia|].
    destruct (IH p' t' v' (ys ++ ys') Hcov') as (zs & -> & Hout); [lia|].
    exists (ys' ++ zs). by rewrite app_assoc.
  - eexists. split; [done|]. by eapply covers_end.
Qed.

Theorem generator_well_formed :
  ∃ out, generator decode fp allow_empty_lines buf_size = (out, Ok ()) ∧
         first_line_last fp text out.
Proof.
  unfold generator.
  destruct (while_loop_covers (S (length fp)) (length fp) []
              {| segment := None; offset := 0; remaining_size := size |} [])
    as (zs & Hrun & Hout).
  - unfold covers, file_size. simpl. split_and!; [lia|lia|by left| |by left].
    rewrite drop_all. apply (dec_nil _ codec).
  - unfold file_size. simpl. lia.
  - by exists zs.
Qed.
End well_formed.





(** Blank lines aside, the lines yielded are the lines of the text from the
    last to the first, whatever the legal buffer size and the setting of
    [allow_empty_lines]. *)
Corollary generator_nonblank_lines fp text allow_empty_lines buf_size :
  utf8_decode fp = Some text →
  MAX_CHAR_BYTES ≤ buf_size →
  (generator utf8_decode fp allow_empty_lines buf_size).2 = Ok () ∧
  nonblank (generator utf8_decode fp allow_empty_lines buf_size).1
    = nonblank (rev (split text)).
Proof.
  intros Htext Hlegal.
  destruct (generator_well_formed utf8_decode utf8_self_synchronizing
              fp text Htext allow_empty_lines buf_size Hlegal)
    as (out & -> & Hempty & Hfirst).
  split; [done|]. simpl.
  destruct fp as [|b fp'].
  - rewrite Hempty by done. by injection Htext as <-.
  - destruct Hfirst as (others & -> & Hothers); [done|].
    rewrite nonblank_app, Hothers.
    destruct (split text) as [|l ls]; [done|]. simpl.
    by rewrite nonblank_app.
Qed.

Example euro_file_lines :
  generator utf8_decode euro_file false 4
    = ([[120; 121; 122; 8364]; [97; 233]], Ok ()) ∧
  generator utf8_decode [] true 4 = ([], Ok ()).
Proof. split; vm_compute; reflexivity. Qed.

(** ** The reverse reader on particular files *)

(** C1 fails on the code: the lines yielded depend on the buffer size.
    With [allow_empty_lines=False] a blank line that starts a chunk is
    yielded; with [allow_empty_lines=True] a chunk that ends with a newline
    adds an empty line that the file does not have. *)
Theorem generator_depends_on_buffer_size :
  generator utf8_decode (b_lit "ab\n\ncd\n") false 4
    = ([s_lit "cd"; s_lit ""; s_lit "ab"], Ok ()) ∧
  generator utf8_decode (b_lit "ab\n\ncd\n") false 8
    = ([s_lit "cd"; s_lit "ab"], Ok ()) ∧
  generator utf8_decode (b_lit "ab\ncdef") true 4
    = ([s_lit "cdef"; s_lit ""; s_lit "ab"], Ok ()) ∧
  generator utf8_decode (b_lit "ab\ncdef") true 8
    = ([s_lit "cdef"; s_lit "ab"], Ok ()).
Proof. split_and!; vm_compute; reflexivity. Qed.

(** C2 fails on the code: with [allow_empty_lines=False] an empty pending
    segment is yielded both when it is flushed between chunks and when it
    is flushed at the end. *)
Theorem generator_yields_empty_segment :
  generator utf8_decode (b_lit "ab\n\ncd\n") false 4
    = ([s_lit "cd"; []; s_lit "ab"], Ok ()) ∧
  generator utf8_decode (b_lit "\nab") false 8192
    = ([s_lit "ab"; []], Ok ()).
Proof. split_and!; vm_compute; reflexivity. Qed.

(** ** Reading and iterating the reverse reader *)



(** The first physical line of a file without a final newline is read with
    a newline by iteration and without one by [readline]. *)
Example next_readline_example :
  let w := {| fs := {[ "f"%string := b_lit "ab\ncd" ]}; io_log := [] |} in
  ∃ f, (reverse_open utf8_decode "f" false 4 w).1 = Ok f ∧
       pull _ReverseReadlineFile.__next__ 5 f = [s_lit "cd\n"; s_lit "ab\n"] ∧
       pull _ReverseReadlineFile.readline 5 f = [s_lit "cd"; s_lit "ab"].
Proof. eexists. split_and!; vm_compute; reflexivity. Qed.

(** ** Construction errors *)

(** C7.  A buffer size below [MAX_CHAR_BYTES] makes [reverse_open] raise
    [ValueError] and leaves the world as it was: the file is not opened.
    With a legal buffer size no [ValueError] is raised, and the first thing
    done is to open the file for binary reading. *)
Theorem reverse_open_checks_buffer_size decode path allow_empty_lines buffer_size w :
  (buffer_size < MAX_CHAR_BYTES →
     reverse_open decode path allow_empty_lines buffer_size w = (Raise ValueError, w)) ∧
  (MAX_CHAR_BYTES ≤ buffer_size →
     (reverse_open decode path allow_empty_lines buffer_size w).1 ≠ Raise ValueError ∧
     io_log (reverse_open decode path allow_empty_lines buffer_size w).2
       = io_log w ++ [SysOpen path "rb"]).
Proof.
  unfold reverse_open. split; intros Hb.
  - apply Z.ltb_lt in Hb. by rewrite Hb.
  - apply Z.ltb_ge in Hb. rewrite Hb.
    unfold builtin_open.
    replace (mode_ok "rb") with true by (vm_compute; reflexivity).
    replace (has_char "x" "rb") with false by (vm_compute; reflexivity).
    replace (has_char "w" "rb") with false by (vm_compute; reflexivity).
    replace (has_char "r" "rb") with true by (vm_compute; reflexivity).
    simpl. destruct (fs w !! path) as [data|]; simpl.
    + by destruct (generator _ _ _ _).
    + done.
Qed.

Lemma reverse_open_checks_buffer_size_witness :
  let w := {| fs := {[ "f"%string := b_lit "ab\ncd" ]}; io_log := [] |} in
  reverse_open utf8_decode "f" false 3 w = (Raise ValueError, w) ∧
  (reverse_open utf8_decode "f" false 4 w).1 ≠ Raise ValueError ∧
  io_log (reverse_open utf8_decode "f" false 4 w).2 = [SysOpen "f" "rb"].
Proof.
  intros w.
  destruct (reverse_open_checks_buffer_size utf8_decode "f" false 3 w) as [H3 _].
  destruct (reverse_open_checks_buffer_size utf8_decode "f" false 4 w) as [_ H4].
  split; [apply H3; unfold MAX_CHAR_BYTES; lia|].
  apply H4. unfold MAX_CHAR_BYTES. lia.
Defined.

(** C8 as stated fails: with [verbose=False] the mode is not checked by
    [progress_open], and a write mode opens (and truncates) the file. *)
Lemma progress_open_mode_unchecked_when_quiet :
  ¬ (∀ path mode encoding verbose buffer_size kwargs w,
       mode ∉ ["r"; "rb"]%string →
       progress_open path mode encoding verbose buffer_size kwargs w
         = (Raise ValueError, w)).
Proof.
  intros Hall.
  specialize (Hall "f"%string "w"%string "utf-8"%string false 8192 ∅
                {| fs := {[ "f"%string := b_lit "ab" ]}; io_log := [] |}).
  assert (Hne : "w"%string ∉ ["r"; "rb"]%string) by (apply (bool_decide_eq_false_1 _); vm_compute; reflexivity).
  specialize (Hall Hne). vm_compute in Hall. discriminate.
Qed.

(** C8, amended.  With the progress bar enabled, a mode other than ["r"]
    and ["rb"] makes [progress_open] raise [ValueError] and leaves the world
    as it was, whatever the other arguments.  With the bar disabled the call
    is [open(path, mode)], with no check of its own. *)
Theorem progress_open_checks_mode_when_verbose
    path mode encoding verbose buffer_size kwargs w :
  mode ∉ ["r"; "rb"]%string →
  (verbose = true →
     progress_open path mode encoding verbose buffer_size kwargs w
       = (Raise ValueError, w)) ∧
  (verbose = false →
     progress_open path mode encoding verbose buffer_size kwargs w
       = ((f ← (builtin_open path mode w).1; Ok (PlainFile f)),
          (builtin_open path mode w).2)).
Proof.
  intros Hmode. unfold progress_open. split; intros ->; simpl.
  - by rewrite bool_decide_eq_false_2.
  - by destruct (builtin_open path mode w).
Qed.

Lemma progress_open_checks_mode_when_verbose_witness :
  let w := {| fs := {[ "f"%string := b_lit "ab" ]}; io_log := [] |} in
  progress_open "f" "w" "utf-8" true 8192 ∅ w = (Raise ValueError, w) ∧
  progress_open "f" "w" "utf-8" false 8192 ∅ w
    = ((f ← (builtin_open "f" "w" w).1; Ok (PlainFile f)), (builtin_open "f" "w" w).2).
Proof.
  intros w.
  assert (Hne : "w"%string ∉ ["r"; "rb"]%string) by (apply (bool_decide_eq_false_1 _); vm_compute; reflexivity).
  destruct (progress_open_checks_mode_when_verbose "f" "w" "utf-8" true 8192 ∅ w Hne) as [Ht _].
  destruct (progress_open_checks_mode_when_verbose "f" "w" "utf-8" false 8192 ∅ w Hne) as [_ Hf].
  split; [by apply Ht | by apply Hf].
Defined.

(** ** More on the reverse reader *)

(** ** How the generator ends *)

Section endings.
Variable decode : bytes → option str.
Variable fp : bytes.
Variable allow_empty_lines : bool.
Variable buf_size : Z.
Hypothesis buf_size_legal : MAX_CHAR_BYTES ≤ buf_size.

(** An iteration entered with bytes remaining seeks and reads within the
    file: it completes, having consumed at least one byte, or raises
    [UnicodeDecodeError] or [IndexError]. *)
Lemma loop_body_outcome v :
  0 < remaining_size v →
  match loop_body decode fp allow_empty_lines buf_size v with
  | Ok (ys, v') => remaining_size v' < remaining_size v
  | Raise e => e = UnicodeDecodeError ∨ e = IndexError
  | Fuel => False
  end.
Proof.
  intros Hpos. unfold MAX_CHAR_BYTES in buf_size_legal.
  unfold loop_body, fp_seek.
  rewrite (proj2 (Z.ltb_ge _ 0)) by lia. rewrite result_bind_ok.
  unfold fp_read.
  rewrite (proj2 (Z.ltb_ge _ (-1))) by lia.
  rewrite (proj2 (Z.eqb_neq _ (-1))) by lia. rewrite result_bind_ok.
  match goal with
  | |- context [decode_loop decode _ 0 ?chunk ?cur ?off] =>
      destruct (decode_loop_result decode chunk cur off)
        as [(k & buffer & Hk & _ & _ & ->) | [_ ->]]; [|by left]
  end.
  rewrite result_bind_ok.
  rewrite (proj2 (Z.ltb_ge _ 0)) by lia. rewrite result_bind_ok.
  destruct (segment v) as [seg|]; [|simpl; lia].
  destruct (last buffer) as [c|]; [|by right].
  destruct (negb _); simpl; lia.
Qed.

Lemma while_loop_ending fuel v :
  remaining_size v ≤ Z.of_nat fuel →
  (while_loop decode fp allow_empty_lines buf_size fuel v).2 = Ok () ∨
  (while_loop decode fp allow_empty_lines buf_size fuel v).2 = Raise UnicodeDecodeError ∨
  (while_loop decode fp allow_empty_lines buf_size fuel v).2 = Raise IndexError.
Proof.
  revert v. induction fuel as [|fuel IH]; intros v Hfuel; rewrite while_loop_eq;
    destruct (Z.gtb_spec (remaining_size v) 0) as [Hpos|Hend]; try (by left); try lia.
  pose proof (loop_body_outcome v Hpos) as Hout.
  destruct (loop_body decode fp allow_empty_lines buf_size v) as [[ys v']| e |];
    [|by destruct Hout as [-> | ->]; [right; left | right; right]|done].
  specialize (IH v').
  destruct (while_loop decode fp allow_empty_lines buf_size fuel v') as [zs r].
  simpl in *. apply IH. lia.
Qed.

(** With a legal buffer size the generator ends on every file, whatever the
    codec makes of it: it returns, or raises [UnicodeDecodeError] or
    [IndexError]; no seek or read of its own fails. *)
Theorem generator_ending :
  (generator decode fp allow_empty_lines buf_size).2 = Ok () ∨
  (generator decode fp allow_empty_lines buf_size).2 = Raise UnicodeDecodeError ∨
  (generator decode fp allow_empty_lines buf_size).2 = Raise IndexError.
Proof.
  unfold generator. apply while_loop_ending. unfold file_size. simpl. lia.
Qed.
End endings.

Lemma generator_ending_witness :
  (generator utf8_decode bad_file false 4).2 = Ok () ∨
  (generator utf8_decode bad_file false 4).2 = Raise UnicodeDecodeError ∨
  (generator utf8_decode bad_file false 4).2 = Raise IndexError.
Proof.
  apply (generator_ending utf8_decode bad_file false 4).
  unfold MAX_CHAR_BYTES. lia.
Defined.

(** ** A buffer that holds the whole file *)

Lemma filter_keep_all (ls : list str) :
  filter (λ line, true || negb (length line =? 0)%nat) ls = ls.
Proof.
  induction ls as [|l ls IH]; [done|].
  rewrite filter_cons_True by done. f_equal. exact IH.
Qed.

Lemma filter_keep_nonblank (ls : list str) :
  filter (λ line, false || negb (length line =? 0)%nat) ls = nonblank ls.
Proof.
  unfold nonblank. apply list_filter_iff. intros [|c l]; simpl; naive_solver.
Qed.

Lemma rev_split_first_last (text : str) :
  rev (tl (split text)) ++ [hd [] (split text)] = rev (split text).
Proof.
  destruct (split text) as [|l ls] eqn:E; [by destruct (split_nonempty text)|done].
Qed.

(** One iteration reads a file that fits the buffer, and the loop ends
    there. *)
Lemma generator_single_chunk decode fp text allow_empty_lines buf_size :
  decode fp = Some text →
  fp ≠ [] →
  file_size fp ≤ buf_size →
  generator decode fp allow_empty_lines buf_size
    = (filter (λ line, allow_empty_lines || negb (length line =? 0)%nat)
         (rev (tl (split text))) ++ [hd [] (split text)], Ok ()).
Proof.
  intros Hdec Hne Hfit.
  assert (0 < file_size fp) as Hpos.
  { unfold file_size. destruct fp; [done|]. simpl. lia. }
  unfold generator. rewrite while_loop_eq. cbn [remaining_size].
  rewrite (proj2 (Z.gtb_lt _ _)) by lia.
  unfold loop_body. cbn [offset remaining_size segment]. unfold file_size in *.
  rewrite Z.add_0_l, (Z.min_l _ _ Hfit), Z.sub_diag.
  change (fp_seek 0) with (@Ok Z 0). rewrite result_bind_ok.
  unfold fp_read. rewrite (proj2 (Z.ltb_ge _ (-1))) by lia.
  rewrite (proj2 (Z.eqb_neq _ (-1))) by lia. rewrite result_bind_ok.
  change (Z.to_nat 0) with 0%nat. rewrite drop_0.
  rewrite Nat2Z.id, firstn_all.
  rewrite decode_loop_unfold, Hdec, result_bind_ok.
  rewrite Z.sub_diag. change (fp_seek 0) with (@Ok Z 0).
  rewrite !result_bind_ok.
  rewrite while_loop_eq. cbn [remaining_size segment].
  rewrite Z.gtb_ltb, (proj2 (Z.ltb_ge _ _)) by lia.
  done.
Qed.

(** When the buffer holds the whole file the lines yielded are exactly the
    lines of the text from the last to the first: all of them with
    [allow_empty_lines=True]; with [allow_empty_lines=False] the first line
    and those of the others that are not empty. *)
Theorem generator_whole_file decode fp text buf_size :
  decode fp = Some text →
  fp ≠ [] →
  file_size fp ≤ buf_size →
  generator decode fp true buf_size = (rev (split text), Ok ()) ∧
  generator decode fp false buf_size
    = (nonblank (rev (tl (split text))) ++ [hd [] (split text)], Ok ()).
Proof.
  intros Hdec Hne Hfit. split.
  - rewrite (generator_single_chunk _ _ _ _ _ Hdec Hne Hfit).
    by rewrite filter_keep_all, rev_split_first_last.
  - rewrite (generator_single_chunk _ _ _ _ _ Hdec Hne Hfit).
    by rewrite filter_keep_nonblank.
Qed.

Lemma generator_whole_file_witness :
  generator utf8_decode euro_file true 10
    = (rev (split [97; 233; 10; 120; 121; 122; 8364]), Ok ()) ∧
  generator utf8_decode euro_file false 10
    = (nonblank (rev (tl (split [97; 233; 10; 120; 121; 122; 8364])))
       ++ [hd [] (split [97; 233; 10; 120; 121; 122; 8364])], Ok ()).
Proof.
  apply (generator_whole_file utf8_decode euro_file).
  - vm_compute. reflexivity.
  - discriminate.
  - vm_compute. discriminate.
Defined.

(** ** Lines without newlines, files without blank lines *)

Lemma split_no_newline s l : l ∈ split s → NL ∉ l.
Proof.
  revert l. induction s as [|c s IH]; intros l; cbn [split].
  - intros ->%list_elem_of_singleton. by intros ?%elem_of_nil.
  - destruct (Z.eqb_spec c NL) as [->|Hc].
    + intros [->|Hl]%elem_of_cons; [by intros ?%elem_of_nil|by apply IH].
    + destruct (split s) as [|l0 ls].
      * intros ->%list_elem_of_singleton.
        by intros [<-|?%elem_of_nil]%elem_of_cons.
      * intros [->|Hl]%elem_of_cons.
        -- intros [<-|Hin]%elem_of_cons; [done|].
           by apply (IH l0); [left|].
        -- apply IH. by right.
Qed.

Lemma nonblank_elem ls (l : str) : l ∈ ls → l ≠ [] → l ∈ nonblank ls.
Proof. intros. by apply list_elem_of_filter. Qed.

Lemma nonblank_elem_inv ls (l : str) : l ∈ nonblank ls → l ∈ ls.
Proof. by intros [_ ?]%list_elem_of_filter. Qed.

Lemma nonblank_all ls : Forall (λ l : str, l ≠ []) ls → nonblank ls = ls.
Proof.
  induction 1 as [|l ls Hl _ IH]; [done|].
  unfold nonblank in *. rewrite filter_cons_True by done. f_equal. exact IH.
Qed.

Lemma nonblank_rev ls : nonblank (rev ls) = rev (nonblank ls).
Proof.
  induction ls as [|l ls IH]; [done|]. simpl.
  rewrite nonblank_app, IH. unfold nonblank. rewrite !filter_cons, filter_nil.
  case_decide; simpl; by rewrite ?app_nil_r.
Qed.

(** A text that does not begin with a newline begins its first line. *)
Lemma first_line_nonblank text :
  text ≠ [] → no_blank_lines text → hd [] (split text) ≠ [].
Proof.
  destruct text as [|c r]; [done|]. intros _ Hnb. simpl.
  destruct (c =? NL) eqn:Hc.
  - unfold no_blank_lines in Hnb. simpl in Hnb. rewrite Hc in Hnb.
    destruct (split r) as [|l ls] eqn:E; [by destruct (split_nonempty r)|].
    simpl in Hnb. by inversion Hnb.
  - by destruct (split r).
Qed.

(** After a newline comes no second one, so a segment flushed at the end of
    a line is not empty. *)
Lemma flushed_segment_nonblank pre x t :
  no_blank_lines (pre ++ x ++ t) → last x = Some NL → t ≠ [] →
  hd [] (split t) ≠ [].
Proof.
  intros Hnb Hlast Ht.
  destruct x as [|c x'] using rev_ind; [done|]. clear IHx'.
  rewrite last_snoc in Hlast. injection Hlast as ->.
  destruct t as [|c t']; [done|]. simpl.
  destruct (c =? NL) eqn:Hc; [|by destruct (split t')].
  apply Z.eqb_eq in Hc as ->. exfalso.
  unfold no_blank_lines in Hnb.
  replace (pre ++ (x' ++ [NL]) ++ NL :: t') with (((pre ++ x') ++ [NL]) ++ NL :: t')
    in Hnb by (by rewrite <- !app_assoc).
  rewrite split_app, split_snoc in Hnb. simpl in Hnb.
  rewrite add_to_last_snoc in Hnb. simpl in Hnb.
  rewrite <- app_assoc in Hnb. simpl in Hnb.
  rewrite removelast_app in Hnb by (intros [=]).
  apply Forall_app in Hnb as [_ Hnb].
  destruct (split t') as [|l ls] eqn:E; [by destruct (split_nonempty t')|].
  simpl in Hnb. by inversion Hnb.
Qed.

Section exact_lines.
Variable decode : bytes → option str.
Hypothesis codec : self_synchronizing decode.
Variable fp : bytes.
Variable text : str.
Hypothesis fp_text : decode fp = Some text.
Variable allow_empty_lines : bool.
Variable buf_size : Z.
Hypothesis buf_size_legal : MAX_CHAR_BYTES ≤ buf_size.

(** The empty lines of an iteration: one is yielded only where the flag
    allows it, or as the pending segment when the chunk, whose text [x]
    stands in the text of the file before what was already read, ends with
    a newline. *)
Lemma body_yields p t v ys ys' v' :
  covers decode fp p t v ys →
  0 < remaining_size v →
  loop_body decode fp allow_empty_lines buf_size v = Ok (ys', v') →
  ∃ pre x,
    text = pre ++ x ++ t ∧
    ([] ∈ ys' →
     allow_empty_lines = true ∨
     (last x = Some NL ∧ segment v = Some [] ∧ (p < length fp)%nat)).
Proof.
  intros (Hp & Hoff & Hrem & Ht & Hseg) Hpos.
  assert (remaining_size v = Z.of_nat p) as Hrem' by lia. clear Hrem.
  assert (0 < p)%nat as Hp0 by lia.
  unfold MAX_CHAR_BYTES in buf_size_legal.
  set (q := (p - Z.to_nat (Z.min (Z.of_nat p) buf_size))%nat).
  set (n := Z.to_nat (Z.min (Z.of_nat p) buf_size)).
  destruct (chunk_decodes decode codec fp text fp_text buf_size buf_size_legal
              p t buf_size (file_size fp - Z.of_nat q) (conj Hp0 Hp) Ht)
    as (k & x & Hk3 & Hkn & Hk0 & Hx & Hdec & Hloop).
  fold q n in Hkn, Hdec, Hloop.
  destruct (dec_prefix _ codec (take (q + k) fp) (drop (q + k) fp) text (x ++ t))
    as (pre & _ & Htext); [by rewrite take_drop|done|].
  unfold loop_body. rewrite Hoff, Hrem'.
  replace (Z.min (file_size fp) (file_size fp - Z.of_nat p + buf_size))
    with (file_size fp - Z.of_nat q) by (unfold q, file_size; lia).
  replace (file_size fp - (file_size fp - Z.of_nat q)) with (Z.of_nat q) by lia.
  unfold fp_seek, fp_read.
  rewrite (proj2 (Z.ltb_ge (Z.of_nat q) 0)) by lia. rewrite result_bind_ok.
  rewrite (proj2 (Z.ltb_ge _ (-1))) by lia.
  rewrite (proj2 (Z.eqb_neq _ (-1))) by lia. rewrite result_bind_ok.
  rewrite Nat2Z.id. fold n. rewrite Hloop. rewrite result_bind_ok.
  rewrite (proj2 (Z.ltb_ge _ 0)) by (unfold q, file_size; lia). rewrite result_bind_ok.
  assert (Hkeep : ∀ ls : list str,
            [] ∈ filter (λ line, allow_empty_lines || negb (length line =? 0)%nat) ls →
            allow_empty_lines = true).
  { intros ls [Hk _]%list_elem_of_filter. simpl in Hk.
    rewrite orb_false_r in Hk. by apply Is_true_eq_true. }
  intros Hbody. exists pre, x. split; [done|]. intros Hblank.
  destruct Hseg as [(_ & Hs & _) | (Hlt & Hs & Hys)].
  - rewrite Hs, result_bind_ok in Hbody.
    injection Hbody as <- _. left. by eapply Hkeep.
  - rewrite Hs in Hbody |- *.
    destruct (last x) as [c|] eqn:Hlast; [|done].
    destruct (Z.eqb_spec c NL) as [->|Hc]; cbv beta iota in Hbody;
      cbn [negb] in Hbody; rewrite result_bind_ok in Hbody;
      injection Hbody as <- _.
    + apply elem_of_cons in Hblank as [Hb|Hb].
      * right. split_and!; [done| |done]. by rewrite <- Hb.
      * left. by eapply Hkeep.
    + left. by eapply Hkeep.
Qed.

Lemma elem_of_rev_tl_split (l : str) s : l ∈ rev (tl (split s)) → l ∈ split s.
Proof.
  intros Hl%list_elem_of_In%in_rev. apply list_elem_of_In.
  destruct (split s); [done|]. by right.
Qed.

Lemma generator_newline_free_lines out :
  first_line_last fp text out → ∀ line, line ∈ out → NL ∉ line.
Proof.
  intros [Hempty Hfirst] line Hline.
  destruct fp as [|b fp'] eqn:E; [rewrite Hempty in Hline by done; by apply elem_of_nil in Hline|].
  destruct Hfirst as (others & -> & Hothers); [done|].
  apply elem_of_app in Hline as [Hline|Hline%list_elem_of_singleton].
  - destruct line as [|c line']; [by intros ?%elem_of_nil|].
    apply (split_no_newline text).
    apply elem_of_rev_tl_split, (nonblank_elem_inv _ (c :: line')).
    rewrite <- Hothers. by apply nonblank_elem.
  - subst line. apply (split_no_newline text).
    destruct (split text) as [|l ls] eqn:Es; [by destruct (split_nonempty text)|].
    by left.
Qed.

Section no_blank.
Hypothesis skip_empty : allow_empty_lines = false.
Hypothesis text_no_blank : no_blank_lines text.

Lemma body_yields_nonblank p t v ys ys' v' :
  covers decode fp p t v ys →
  0 < remaining_size v →
  loop_body decode fp allow_empty_lines buf_size v = Ok (ys', v') →
  Forall (λ l, l ≠ []) ys'.
Proof.
  intros Hcov Hpos Hbody. apply Forall_forall. intros l Hl ->.
  destruct (body_yields p t v ys ys' v' Hcov Hpos Hbody) as (pre & x & Htext & Hblank).
  destruct (Hblank Hl) as [Hflag | (Hlast & Hseg & Hlt)]; [congruence|].
  destruct Hcov as (_ & _ & _ & Ht & [(Hp & _) | (_ & Hs & _)]); [lia|].
  rewrite Hseg in Hs. injection Hs as Hs.
  assert (t ≠ []) as Hne.
  { intros ->. apply (dec_nonempty _ codec) in Ht.
    apply (f_equal length) in Ht. rewrite length_drop in Ht. simpl in Ht. lia. }
  rewrite Htext in text_no_blank.
  by destruct (flushed_segment_nonblank pre x t text_no_blank Hlast Hne).
Qed.

Lemma while_loop_nonblank fuel p t v ys :
  covers decode fp p t v ys →
  remaining_size v ≤ Z.of_nat fuel →
  Forall (λ l, l ≠ []) ys →
  ∃ zs, while_loop decode fp allow_empty_lines buf_size fuel v = (zs, Ok ()) ∧
        ((fp = [] ∧ ys ++ zs = []) ∨
         ∃ others, ys ++ zs = others ++ [hd [] (split text)] ∧
                   nonblank others = nonblank (rev (tl (split text))) ∧
                   Forall (λ l, l ≠ []) others).
Proof.
  assert (Hend : ∀ p t v ys,
            covers decode fp p t v ys → remaining_size v ≤ 0 →
            Forall (λ l, l ≠ []) ys →
            (fp = [] ∧ ys ++ match segment v with Some s => [s] | None => [] end = []) ∨
            ∃ others,
              ys ++ match segment v with Some s => [s] | None => [] end
                = others ++ [hd [] (split text)] ∧
              nonblank others = nonblank (rev (tl (split text))) ∧
              Forall (λ l, l ≠ []) others).
  { intros p0 t0 v0 ys0 (Hp & Hoff & Hrem & Ht & Hseg) Hend Hall.
    assert (p0 = 0%nat) as -> by lia.
    rewrite drop_0, fp_text in Ht. injection Ht as <-.
    destruct Hseg as [(Hlen & -> & ->) | (Hlen & -> & Hys)].
    - left. split; [|done]. by destruct fp.
    - right. by exists ys0. }
  revert p t v ys. induction fuel as [|fuel IH]; intros p t v ys Hcov Hfuel Hall;
    rewrite while_loop_eq; destruct (Z.gtb_spec (remaining_size v) 0) as [Hpos|Hle];
    try lia.
  - eexists. split; [done|]. by eapply Hend.
  - destruct (body_step decode codec fp text fp_text allow_empty_lines buf_size
                buf_size_legal p t v ys Hcov)
      as (p' & t' & ys' & v' & Hbody & Hcov' & Hlt); [lia|].
    pose proof (body_yields_nonblank p t v ys ys' v' Hcov ltac:(lia) Hbody) as Hall'.
    rewrite Hbody.
    destruct (IH p' t' v' (ys ++ ys') Hcov') as (zs & -> & Hout);
      [lia|by apply Forall_app|].
    exists (ys' ++ zs). by rewrite app_assoc.
  - eexists. split; [done|]. by eapply Hend.
Qed.

(** A file without blank lines, read with [allow_empty_lines=False]: the
    lines yielded are the lines of the text that are not empty, from the
    last to the first. *)
Lemma generator_exact_lines :
  generator decode fp allow_empty_lines buf_size = (rev (nonblank (split text)), Ok ()).
Proof.
  destruct (decide (fp = [])) as [Hfp|Hfp].
  { rewrite Hfp in fp_text |- *. rewrite (dec_nil _ codec) in fp_text.
    by injection fp_text as <-. }
  assert (text ≠ []) as Hne.
  { intros ->. by apply (dec_nonempty _ codec) in fp_text. }
  pose proof (first_line_nonblank text Hne text_no_blank) as Hfirst.
  unfold generator.
  destruct (while_loop_nonblank (S (length fp)) (length fp) []
              {| segment := None; offset := 0; remaining_size := file_size fp |} [])
    as (zs & -> & Hout).
  - unfold covers, file_size. simpl. split_and!; [lia|lia|by left| |by left].
    rewrite drop_all. apply (dec_nil _ codec).
  - unfold file_size. simpl. lia.
  - done.
  - f_equal. simpl in Hout.
    destruct Hout as [[? _] | (others & -> & Hothers & Hall)]; [done|].
    rewrite <- (nonblank_all others Hall), Hothers, nonblank_rev.
    destruct (split text) as [|l ls] eqn:Es; [by destruct (split_nonempty text)|].
    simpl in *. unfold nonblank at 2. rewrite filter_cons_True by done. done.
Qed.
End no_blank.
End exact_lines.

(** For a file that is valid UTF-8 and has no blank line, read with
    [allow_empty_lines=False] and any legal buffer size, the generator
    yields exactly the lines of the file that are not empty, from the last
    to the first; the buffer size makes no difference. *)
Theorem generator_exact_without_blank_lines fp text buf_size :
  utf8_decode fp = Some text →
  no_blank_lines text →
  MAX_CHAR_BYTES ≤ buf_size →
  generator utf8_decode fp false buf_size = (rev (nonblank (split text)), Ok ()).
Proof.
  intros Htext Hnb Hlegal.
  by apply (generator_exact_lines utf8_decode utf8_self_synchronizing).
Qed.

Lemma generator_exact_without_blank_lines_witness :
  generator utf8_decode three_lines false 4
    = (rev (nonblank (split (s_lit "ab\ncd\nef\n"))), Ok ()).
Proof.
  apply generator_exact_without_blank_lines.
  - vm_compute. reflexivity.
  - unfold no_blank_lines. vm_compute. repeat constructor; discriminate.
  - unfold MAX_CHAR_BYTES. lia.
Defined.

(** No line yielded for a file that is valid UTF-8 contains a newline. *)
Theorem generator_lines_without_newline fp text allow_empty_lines buf_size :
  utf8_decode fp = Some text →
  MAX_CHAR_BYTES ≤ buf_size →
  ∀ line, line ∈ (generator utf8_decode fp allow_empty_lines buf_size).1 → NL ∉ line.
Proof.
  intros Htext Hlegal.
  destruct (generator_well_formed utf8_decode utf8_self_synchronizing
              fp text Htext allow_empty_lines buf_size Hlegal)
    as (out & -> & Hout).
  intros line. simpl. by eapply generator_newline_free_lines.
Qed.

Lemma generator_lines_without_newline_witness :
  [120; 121; 122; 8364] ∈ (generator utf8_decode euro_file true 4).1 ∧
  NL ∉ [120; 121; 122; 8364].
Proof.
  assert (Hin : [120; 121; 122; 8364] ∈ (generator utf8_decode euro_file true 4).1).
  { replace (generator utf8_decode euro_file true 4).1
      with [[120; 121; 122; 8364]; [97; 233]] by (vm_compute; reflexivity).
    apply list_elem_of_here. }
  split; [exact Hin|].
  apply (generator_lines_without_newline euro_file
           [97; 233; 10; 120; 121; 122; 8364] true 4); [| |exact Hin].
  - vm_compute. reflexivity.
  - unfold MAX_CHAR_BYTES. lia.
Defined.

Lemma generator_nonblank_lines_witness :
  (generator utf8_decode euro_file true 4).2 = Ok () ∧
  nonblank (generator utf8_decode euro_file true 4).1
    = nonblank (rev (split [97; 233; 10; 120; 121; 122; 8364])).
Proof.
  apply generator_nonblank_lines.
  - vm_compute. reflexivity.
  - unfold MAX_CHAR_BYTES. lia.
Defined.

(** ** The object [reverse_open] returns *)

Lemma builtin_open_rb path w :
  builtin_open path "rb" w =
    (match fs w !! path with
     | Some data => Ok (File path "rb" data)
     | None => Raise OSError
     end, log_io (SysOpen path "rb") w).
Proof.
  unfold builtin_open.
  replace (mode_ok "rb") with true by (vm_compute; reflexivity).
  replace (has_char "x" "rb") with false by (vm_compute; reflexivity).
  replace (has_char "w" "rb") with false by (vm_compute; reflexivity).
  replace (has_char "r" "rb") with true by (vm_compute; reflexivity).
  simpl. by destruct (fs w !! path).
Qed.

Lemma reverse_open_opens decode path allow_empty_lines buffer_size w data :
  fs w !! path = Some data →
  MAX_CHAR_BYTES ≤ buffer_size →
  reverse_open decode path allow_empty_lines buffer_size w =
    (Ok {| fp := File path "rb" data;
           gen := {| pending := (generator decode data allow_empty_lines buffer_size).1;
                     ending := (generator decode data allow_empty_lines buffer_size).2 |} |},
     log_io (SysOpen path "rb") w).
Proof.
  intros Hdata Hlegal. unfold reverse_open.
  rewrite (proj2 (Z.ltb_ge _ _)) by done.
  rewrite builtin_open_rb, Hdata. simpl.
  by destruct (generator decode data allow_empty_lines buffer_size).
Qed.

Lemma run_calls_cons m ms self :
  run_calls (m :: ms) self =
    (((if m then __next__ self else readline self).1
      :: (run_calls ms (if m then __next__ self else readline self).2).1),
     (run_calls ms (if m then __next__ self else readline self).2).2).
Proof.
  simpl. destruct (if m then __next__ self else readline self) as [r self1].
  simpl. by destruct (run_calls ms self1).
Qed.

Lemma run_calls_lines ms : ∀ fp0 out,
  (run_calls ms {| fp := fp0; gen := {| pending := out; ending := Ok () |} |}).1
    = zip_with returned_line ms out
      ++ replicate (length ms - length out) (Raise StopIteration).
Proof.
  induction ms as [|m ms IH]; intros fp0 out; [done|].
  rewrite run_calls_cons. destruct out as [|y ys].
  - replace (if m then __next__ _ else readline _)
      with (@Raise str StopIteration,
            {| fp := fp0; gen := {| pending := []; ending := Ok () |} |})
      by (by destruct m).
    cbn [fst snd]. rewrite IH, !zip_with_nil_r. simpl. by rewrite Nat.sub_0_r.
  - replace (if m then __next__ _ else readline _)
      with (returned_line m y,
            {| fp := fp0; gen := {| pending := ys; ending := Ok () |} |})
      by (by destruct m).
    cbn [fst snd]. by rewrite IH.
Qed.

(** On a file that is valid UTF-8, [reverse_open] with a legal buffer size
    opens the file for binary reading and returns an object on which calls
    of [__next__] and [readline], in any mix, return the lines of the
    generator in order, [__next__] with a newline appended; once the lines
    are used up every further call raises [StopIteration]. *)
Theorem reverse_open_iterates path data text allow_empty_lines buffer_size w :
  fs w !! path = Some data →
  utf8_decode data = Some text →
  MAX_CHAR_BYTES ≤ buffer_size →
  ∃ f out,
    reverse_open utf8_decode path allow_empty_lines buffer_size w
      = (Ok f, log_io (SysOpen path "rb") w) ∧
    generator utf8_decode data allow_empty_lines buffer_size = (out, Ok ()) ∧
    ∀ ms, (run_calls ms f).1
            = zip_with returned_line ms out
              ++ replicate (length ms - length out) (Raise StopIteration).
Proof.
  intros Hdata Htext Hlegal.
  destruct (generator_well_formed utf8_decode utf8_self_synchronizing
              data text Htext allow_empty_lines buffer_size Hlegal)
    as (out & Hgen & _).
  eexists _, out. split; [by apply reverse_open_opens|].
  split; [done|]. intros ms. rewrite Hgen. apply run_calls_lines.
Qed.

Lemma reverse_open_iterates_witness :
  let w := {| fs := {[ "f"%string := three_lines ]}; io_log := [] |} in
  ∃ f out,
    reverse_open utf8_decode "f" false 4 w = (Ok f, log_io (SysOpen "f" "rb") w) ∧
    generator utf8_decode three_lines false 4 = (out, Ok ()) ∧
    ∀ ms, (run_calls ms f).1
            = zip_with returned_line ms out
              ++ replicate (length ms - length out) (Raise StopIteration).
Proof.
  intros w.
  apply (reverse_open_iterates "f" three_lines (s_lit "ab\ncd\nef\n")).
  - vm_compute. reflexivity.
  - vm_compute. reflexivity.
  - unfold MAX_CHAR_BYTES. lia.
Defined.

(** [reverse_open] never changes a file, and neither does [progress_open]
    with the progress bar enabled: whatever the arguments and whether the
    call succeeds or raises, the files are afterwards what they were. *)
Theorem readers_leave_files_unchanged decode path mode encoding allow_empty_lines
    buffer_size kwargs w :
  fs (reverse_open decode path allow_empty_lines buffer_size w).2 = fs w ∧
  fs (progress_open path mode encoding true buffer_size kwargs w).2 = fs w.
Proof.
  split.
  - unfold reverse_open. destruct (buffer_size <? MAX_CHAR_BYTES); [done|].
    rewrite builtin_open_rb. destruct (fs w !! path) as [data|]; [|done].
    by destruct (generator _ _ _ _).
  - unfold progress_open, file_io. simpl.
    destruct (bool_decide _); simpl; [|done].
    by destruct (fs w !! path).
Qed.

(** ** The progress wrapper *)

Import _ProgressBufferedReader.

Section progress_properties.
Context {R : Type} `{BufferedReader R}.








Lemma close_keeps_base (self : _ProgressBufferedReader.instance R) :
  base (_ProgressBufferedReader.close self) = base self ∧
  base (_ProgressBufferedReader.__exit__ self) = base self.
Proof. done. Qed.
End progress_properties.







Example sample_reader_reads :
  (reads [Read 3; ReadLine (-1); Read1 (-1); ReadInto 16] sample_reader).1
    = [Ok (b_lit "hel"); Ok (b_lit "lo\n"); Ok (b_lit "world"); Ok []] ∧
  _ProgressBufferedReader.__init__ (b_lit "hello\nworld") 8192 ∅ = Ok sample_reader.
Proof. split; vm_compute; reflexivity. Qed.

(** C6 fails on the code: [close] closes the progress bar and nothing
    else, and [__exit__] reaches the same [close] before the bar's own
    [__exit__]; the underlying source stays open after either. *)
Theorem close_leaves_source_open :
  let w := {| fs := {[ "f"%string := b_lit "hello\nworld" ]}; io_log := [] |} in
  ∃ f, (progress_open "f" "rb" "utf-8" true 8192 ∅ w).1 = Ok (BinaryHandle f) ∧
       super_closed (base f) = false ∧
       super_closed (base (_ProgressBufferedReader.close f)) = false ∧
       calls (progress_bar (_ProgressBufferedReader.close f)) = [BarClose] ∧
       super_closed (base (_ProgressBufferedReader.__exit__ f)) = false ∧
       calls (progress_bar (_ProgressBufferedReader.__exit__ f)) = [BarClose; BarExit].
Proof. eexists. split_and!; vm_compute; reflexivity. Qed.

(** ** Output suppression *)

(** When the body raises, nothing of the generator after its [yield] runs:
    the descriptor table is left as the body left it. *)
Lemma shut_up_body_raises {A} stderr stdout (body : os A) t fr t1 e t2 :
  shut_up_before stderr stdout t = (Ok fr, t1) →
  body t1 = (Raise e, t2) →
  shut_up stderr stdout body t = (Raise e, t2).
Proof. unfold shut_up. by intros -> ->. Qed.

(** C9 fails on the code: whichever descriptors are selected, on normal
    exit descriptors 1 and 2 refer to the terminal again, but when the body
    raises the exception leaves the scope with every selected descriptor
    still referring to the null device. *)
Theorem shut_up_not_restored_on_exception (stderr stdout : bool) :
  let ok : os unit := os_ret () in
  let failing : os unit := λ t, (Raise ValueError, t) in
  (shut_up stderr stdout ok std_fds).1 = Ok () ∧
  (shut_up stderr stdout ok std_fds).2 !! 1%nat = Some (Stream "stdout") ∧
  (shut_up stderr stdout ok std_fds).2 !! 2%nat = Some (Stream "stderr") ∧
  (shut_up stderr stdout failing std_fds).1 = Raise ValueError ∧
  (shut_up stderr stdout failing std_fds).2 !! 1%nat
    = Some (if stdout then DevNull else Stream "stdout") ∧
  (shut_up stderr stdout failing std_fds).2 !! 2%nat
    = Some (if stderr then DevNull else Stream "stderr").
Proof. destruct stderr, stdout; split_and!; vm_compute; reflexivity. Qed.

(** ** The count of the bar and the position of the source *)

Section count_is_position.
Context {R : Type} `{BufferedReader R}.
Context `{!BufferedReaderLaws R} `{!BufferedReaderSeekLaws R}.



End count_is_position.



(** ** What [progress_open] builds *)







(** ** Reading a whole file *)




(** ** Descriptors across [shut_up] *)

Lemma initial_segment_size (t : fd_table) (k : nat) :
  (∀ i, (i < k)%nat → is_Some (t !! i)) → (k ≤ size t)%nat.
Proof.
  intros Hall.
  assert (Hsub : set_seq (C := gset nat) 0 k ⊆ dom t).
  { intros i [_ Hi]%elem_of_set_seq. apply elem_of_dom, Hall. lia. }
  apply subseteq_size in Hsub. by rewrite size_set_seq, size_dom in Hsub.
Qed.

Lemma lowest_free_from_fresh (t : fd_table) budget : ∀ fd,
  (∀ i, (i < fd)%nat → is_Some (t !! i)) →
  (fd + budget = size t)%nat →
  t !! lowest_free_from budget fd t = None.
Proof.
  induction budget as [|budget IH]; intros fd Hall Hsize; simpl.
  - destruct (t !! fd) as [f|] eqn:E; [|done].
    assert (S fd ≤ size t)%nat; [|lia].
    apply initial_segment_size. intros i Hi.
    destruct (decide (i = fd)) as [->|]; [by rewrite E|apply Hall; lia].
  - destruct (t !! fd) as [f|] eqn:E; [|done].
    apply IH; [|lia]. intros i Hi.
    destruct (decide (i = fd)) as [->|]; [by rewrite E|apply Hall; lia].
Qed.

(** The descriptor that [os.open] and [os.dup] return is not in use. *)
Lemma lowest_free_fresh (t : fd_table) : t !! lowest_free t = None.
Proof. apply lowest_free_from_fresh; [lia|done]. Qed.

Lemma lowest_free_ne (t : fd_table) fd f : t !! fd = Some f → lowest_free t ≠ fd.
Proof. intros E Heq. rewrite <- Heq, lowest_free_fresh in E. done. Qed.


Lemma os_bind_assoc {A B C} (m : os A) (k1 : A → os B) (k2 : B → os C) t :
  (y ←ₒ (x ←ₒ m; k1 x); k2 y) t = (x ←ₒ m; y ←ₒ k1 x; k2 y) t.
Proof. unfold os_bind. by destruct (m t) as [[a| e |] t']. Qed.

Lemma os_bind_ret {A B} (a : A) (k : A → os B) t : (x ←ₒ os_ret a; k x) t = k a t.
Proof. done. Qed.

Lemma os_bind_open_devnull {B} (k : nat → os B) t :
  (x ←ₒ os_open_devnull; k x) t = k (lowest_free t) (<[lowest_free t := DevNull]> t).
Proof. done. Qed.

Lemma os_bind_dup {B} fd f (k : nat → os B) t :
  t !! fd = Some f →
  (x ←ₒ os_dup fd; k x) t = k (lowest_free t) (<[lowest_free t := f]> t).
Proof. intros E. unfold os_bind, os_dup. by rewrite E. Qed.

Lemma os_bind_dup_closed {B} fd (k : nat → os B) t :
  t !! fd = None → (x ←ₒ os_dup fd; k x) t = (Raise OSError, t).
Proof. intros E. unfold os_bind, os_dup. by rewrite E. Qed.

Lemma os_bind_dup2 {B} fd fd2 f (k : nat → os B) t :
  t !! fd = Some f → (x ←ₒ os_dup2 fd fd2; k x) t = k fd2 (<[fd2 := f]> t).
Proof. intros E. unfold os_bind, os_dup2. by rewrite E. Qed.

Lemma os_bind_close {B} fd f (k : unit → os B) t :
  t !! fd = Some f → (x ←ₒ os_close fd; k x) t = k () (delete fd t).
Proof. intros E. unfold os_bind, os_close. by rewrite E. Qed.

Lemma os_close_open fd f t : t !! fd = Some f → os_close fd t = (Ok (), delete fd t).
Proof. intros E. unfold os_close. by rewrite E. Qed.


Ltac os_norm :=
  cbn [os_map os_for zip zip_with fds null_fds output_fds];
  repeat (first [rewrite os_bind_assoc | rewrite os_bind_ret];
          cbn [os_map os_for zip zip_with fds null_fds output_fds]).

Ltac split_fresh H :=
  repeat match type of H with
  | <[_:=_]> _ !! _ = None => apply lookup_insert_None in H as [H ?]
  end.

Ltac name_fresh a Ha :=
  match goal with
  | |- context [lowest_free ?T] =>
      pose proof (lowest_free_fresh T) as Ha;
      revert Ha; generalize (lowest_free T); intros a Ha; split_fresh Ha
  end.

Ltac lookup_solve :=
  repeat first
    [ rewrite lookup_insert_eq
    | rewrite lookup_insert_ne by congruence
    | rewrite lookup_delete_ne by congruence ];
  first [eassumption | reflexivity].


Ltac by_key i keys :=
  match keys with
  | [] => idtac
  | ?k :: ?ks => destruct (decide (i = k)) as [->|]; [|by_key i ks]
  end.

Lemma shut_up_before_both t s1 s2 :
  t !! 1%nat = Some s1 → t !! 2%nat = Some s2 →
  ∃ a b c d,
    t !! a = None ∧ t !! b = None ∧ t !! c = None ∧ t !! d = None ∧
    a ≠ b ∧ a ≠ c ∧ a ≠ d ∧ b ≠ c ∧ b ≠ d ∧ c ≠ d ∧
    shut_up_before true true t =
      (Ok {| fds := [1%nat; 2%nat]; null_fds := [a; b]; output_fds := [c; d] |},
       <[2%nat := DevNull]> (<[1%nat := DevNull]>
         (<[d := s2]> (<[c := s1]> (<[b := DevNull]> (<[a := DevNull]> t)))))).
Proof.
  intros H1 H2. unfold shut_up_before. cbn [app]. os_norm.
  rewrite os_bind_open_devnull. name_fresh a Ha. os_norm.
  rewrite os_bind_open_devnull. name_fresh b Hb. os_norm.
  assert (a ≠ 1%nat ∧ a ≠ 2%nat ∧ b ≠ 1%nat ∧ b ≠ 2%nat) as (?&?&?&?)
    by (split_and!; congruence).
  rewrite (os_bind_dup 1 s1) by lookup_solve. name_fresh c Hc. os_norm.
  rewrite (os_bind_dup 2 s2) by lookup_solve. name_fresh d Hd. os_norm.
  assert (c ≠ 1%nat ∧ c ≠ 2%nat ∧ d ≠ 1%nat ∧ d ≠ 2%nat) as (?&?&?&?)
    by (split_and!; congruence).
  rewrite (os_bind_dup2 a 1 DevNull) by lookup_solve. os_norm.
  rewrite (os_bind_dup2 b 2 DevNull) by lookup_solve. os_norm.
  exists a, b, c, d. split_and!; try done; congruence.
Qed.

Lemma shut_up_before_one stderr stdout t s :
  xorb stderr stdout = true →
  t !! (if stdout then 1%nat else 2%nat) = Some s →
  ∃ a c,
    t !! a = None ∧ t !! c = None ∧ a ≠ c ∧
    shut_up_before stderr stdout t =
      (Ok {| fds := [if stdout then 1%nat else 2%nat];
             null_fds := [a]; output_fds := [c] |},
       <[(if stdout then 1%nat else 2%nat) := DevNull]>
         (<[c := s]> (<[a := DevNull]> t))).
Proof.
  intros Hone. unfold shut_up_before.
  replace ((if stdout then [1%nat] else []) ++ (if stderr then [2%nat] else []))
    with [if stdout then 1%nat else 2%nat] by (by destruct stderr, stdout).
  generalize (if stdout then 1%nat else 2%nat). intros fd Hfd. os_norm.
  rewrite os_bind_open_devnull. name_fresh a Ha. os_norm.
  assert (a ≠ fd) by congruence.
  rewrite (os_bind_dup fd s) by lookup_solve. name_fresh c Hc. os_norm.
  assert (c ≠ fd) by congruence.
  rewrite (os_bind_dup2 a fd DevNull) by lookup_solve. os_norm.
  exists a, c. split_and!; try done; congruence.
Qed.

(** With every selected descriptor open, [shut_up] makes the selected
    descriptors refer to the null device while the body runs and leaves
    the others as they were.  When the body returns, having left the
    descriptors as it found them, every descriptor that was open before
    refers again to what it referred to; the duplicates made to remember
    the selected descriptors are not closed, so each use leaves one more
    descriptor open for each selected one. *)
Theorem shut_up_restores_and_leaks {A} stderr stdout (body : os A) t :
  (stdout = true → is_Some (t !! 1%nat)) →
  (stderr = true → is_Some (t !! 2%nat)) →
  let selected :=
    (if stdout then [1%nat] else []) ++ (if stderr then [2%nat] else []) in
  ∃ fr t1,
    shut_up_before stderr stdout t = (Ok fr, t1) ∧
    (∀ fd, fd ∈ selected → t1 !! fd = Some DevNull) ∧
    (∀ fd f, fd ∉ selected → t !! fd = Some f → t1 !! fd = Some f) ∧
    ∀ a, body t1 = (Ok a, t1) →
      ∃ t', shut_up stderr stdout body t = (Ok a, t') ∧
            t ⊆ t' ∧
            size t' = (size t + length selected)%nat.
Proof.
  intros H1 H2 selected.
  destruct (bool_decide (xorb stderr stdout = true)) eqn:Hx.
  - (* one descriptor selected *)
    apply bool_decide_eq_true_1 in Hx.
    assert (Hsel : selected = [if stdout then 1%nat else 2%nat])
      by (by destruct stderr, stdout).
    assert (Hopen : is_Some (t !! (if stdout then 1%nat else 2%nat))).
    { destruct stdout; [by apply H1|]. destruct stderr; [by apply H2|done]. }
    destruct Hopen as [s Hs]. rewrite Hsel. clear Hsel selected H1 H2.
    destruct (shut_up_before_one stderr stdout t s Hx Hs)
      as (a & c & Ha & Hc & Hac & Hbefore).
    revert Hs Hbefore. generalize (if stdout then 1%nat else 2%nat).
    intros fd Hs Hbefore.
    assert (a ≠ fd ∧ c ≠ fd) as [? ?] by (split; congruence).
    eexists _, _. split; [exact Hbefore|]. split_and!.
    + intros fd' ->%list_elem_of_singleton. lookup_solve.
    + intros fd' f Hfd'%not_elem_of_cons Hf. destruct Hfd' as [? _].
      assert (a ≠ fd' ∧ c ≠ fd') as [? ?] by (split; congruence).
      lookup_solve.
    + intros r Hbody. unfold shut_up. rewrite Hbefore, Hbody.
      unfold shut_up_after. os_norm.
      rewrite (os_bind_dup2 c fd s) by lookup_solve. os_norm.
      rewrite (os_bind_close a DevNull) by lookup_solve. os_norm.
      eexists. split; [reflexivity|].
      assert (Hfinal :
        delete a (<[fd:=s]> (<[fd:=DevNull]> (<[c:=s]> (<[a:=DevNull]> t))))
          = <[c:=s]> t).
      { apply map_eq. intros i. by_key i [a; c; fd].
        - rewrite lookup_delete_eq. symmetry. lookup_solve.
        - rewrite lookup_delete_ne by congruence. lookup_solve.
        - rewrite lookup_delete_ne by congruence. rewrite lookup_insert_eq.
          symmetry. lookup_solve.
        - rewrite lookup_delete_ne by congruence.
          rewrite !lookup_insert_ne by congruence. done. }
      rewrite Hfinal. split; [by apply insert_subseteq|].
      rewrite map_size_insert_None by done. simpl. lia.
  - (* both or none *)
    apply bool_decide_eq_false_1 in Hx.
    destruct stderr, stdout; try done.
    + destruct (H1 eq_refl) as [s1 Hs1]. destruct (H2 eq_refl) as [s2 Hs2].
      destruct (shut_up_before_both t s1 s2 Hs1 Hs2)
        as (a & b & c & d & Ha & Hb & Hc & Hd & ? & ? & ? & ? & ? & ? & Hbefore).
      assert (a ≠ 1%nat ∧ a ≠ 2%nat ∧ b ≠ 1%nat ∧ b ≠ 2%nat ∧
              c ≠ 1%nat ∧ c ≠ 2%nat ∧ d ≠ 1%nat ∧ d ≠ 2%nat)
        as (?&?&?&?&?&?&?&?) by (split_and!; congruence).
      eexists _, _. split; [exact Hbefore|]. subst selected. split_and!.
      * intros fd [->| ->%list_elem_of_singleton]%elem_of_cons; lookup_solve.
      * intros fd f Hfd Hf.
        apply not_elem_of_cons in Hfd as [? Hfd].
        apply not_elem_of_cons in Hfd as [? _].
        assert (a ≠ fd ∧ b ≠ fd ∧ c ≠ fd ∧ d ≠ fd) as (?&?&?&?)
          by (split_and!; congruence).
        lookup_solve.
      * intros r Hbody. unfold shut_up. rewrite Hbefore, Hbody.
        unfold shut_up_after. os_norm.
        rewrite (os_bind_dup2 c 1 s1) by lookup_solve. os_norm.
        rewrite (os_bind_close a DevNull) by lookup_solve. os_norm.
        rewrite (os_bind_dup2 d 2 s2) by lookup_solve. os_norm.
        rewrite (os_bind_close b DevNull) by lookup_solve. os_norm.
        eexists. split; [reflexivity|].
        match goal with |- _ ⊆ ?T ∧ _ =>
          assert (Hfinal : T = <[d:=s2]> (<[c:=s1]> t)) end.
        { apply map_eq. intros i. by_key i [a; b; c; d; 1%nat; 2%nat].
          - rewrite lookup_delete_ne by congruence.
            rewrite lookup_insert_ne by congruence.
            rewrite lookup_delete_eq. symmetry. lookup_solve.
          - rewrite lookup_delete_eq. symmetry. lookup_solve.
          - rewrite lookup_delete_ne by congruence.
            rewrite lookup_insert_ne by congruence.
            rewrite lookup_delete_ne by congruence.
            rewrite (lookup_insert_ne _ 1%nat) by congruence.
            rewrite (lookup_insert_ne _ 2%nat) by congruence.
            rewrite (lookup_insert_ne _ 1%nat) by congruence.
            rewrite (lookup_insert_ne _ d) by congruence.
            rewrite lookup_insert_eq. symmetry. lookup_solve.
          - rewrite lookup_delete_ne by congruence.
            rewrite lookup_insert_ne by congruence.
            rewrite lookup_delete_ne by congruence.
            rewrite (lookup_insert_ne _ 1%nat) by congruence.
            rewrite (lookup_insert_ne _ 2%nat) by congruence.
            rewrite (lookup_insert_ne _ 1%nat) by congruence.
            rewrite lookup_insert_eq. symmetry. lookup_solve.
          - rewrite lookup_delete_ne by congruence.
            rewrite lookup_insert_ne by congruence.
            rewrite lookup_delete_ne by congruence.
            rewrite lookup_insert_eq. symmetry. lookup_solve.
          - rewrite lookup_delete_ne by congruence.
            rewrite lookup_insert_eq. symmetry. lookup_solve.
          - rewrite !lookup_delete_ne by congruence.
            rewrite !lookup_insert_ne by congruence.
            rewrite !lookup_delete_ne by congruence.
            rewrite !lookup_insert_ne by congruence. done. }
        rewrite Hfinal. split.
        -- etrans; [apply (insert_subseteq t c s1); done|].
           apply insert_subseteq. lookup_solve.
        -- rewrite !map_size_insert_None by lookup_solve. simpl. lia.
    + subst selected. exists {| fds := []; null_fds := []; output_fds := [] |}, t.
      split; [done|]. split_and!.
      * by intros fd ?%elem_of_nil.
      * done.
      * intros r Hbody. exists t. unfold shut_up.
        change (shut_up_before false false t)
          with (@Ok shut_up_frame {| fds := []; null_fds := []; output_fds := [] |}, t).
        cbv beta iota. rewrite Hbody. split; [done|]. split; [done|]. simpl. lia.
Qed.

Lemma shut_up_restores_and_leaks_witness :
  ∃ fr t1,
    shut_up_before true false std_fds = (Ok fr, t1) ∧
    (∀ fd, fd ∈ [2%nat] → t1 !! fd = Some DevNull) ∧
    (∀ fd f, fd ∉ [2%nat] → std_fds !! fd = Some f → t1 !! fd = Some f) ∧
    ∀ a, os_ret () t1 = (Ok a, t1) →
      ∃ t', shut_up true false (os_ret ()) std_fds = (Ok a, t') ∧
            std_fds ⊆ t' ∧
            size t' = (size std_fds + length [2%nat])%nat.
Proof.
  apply (shut_up_restores_and_leaks true false (os_ret ()) std_fds).
  - discriminate.
  - intros _. eexists. vm_compute. reflexivity.
Defined.

(** ** Reading after [close] *)

Section after_close.
Context {R : Type} `{BufferedReader R}.


End after_close.

(** ** A file that does not exist *)

(** With a legal buffer size, [reverse_open] on a path that does not exist
    raises [OSError]: the attempt to open it is the only thing done, and no
    file is created. *)
Theorem reverse_open_missing_file decode path allow_empty_lines buffer_size w :
  fs w !! path = None →
  MAX_CHAR_BYTES ≤ buffer_size →
  reverse_open decode path allow_empty_lines buffer_size w
    = (Raise OSError, log_io (SysOpen path "rb") w) ∧
  fs (log_io (SysOpen path "rb") w) !! path = None.
Proof.
  intros Hnone Hlegal. unfold reverse_open.
  rewrite (proj2 (Z.ltb_ge _ _)) by done.
  by rewrite builtin_open_rb, Hnone.
Qed.

Lemma reverse_open_missing_file_witness :
  let w := {| fs := {[ "f"%string := three_lines ]}; io_log := [] |} in
  reverse_open utf8_decode "g" false 8192 w
    = (Raise OSError, log_io (SysOpen "g" "rb") w) ∧
  fs (log_io (SysOpen "g" "rb") w) !! "g"%string = None.
Proof.
  intros w. apply reverse_open_missing_file.
  - vm_compute. reflexivity.
  - unfold MAX_CHAR_BYTES. lia.
Defined.
